(** * ninja-scan-light, tool/analyze_common.h

    A shallow embedding of the two pieces of [analyze_common.h] that carry
    invariants:

    - [NAVData::encode_N0], the encoder of the 32-byte "N0" packet
      (module [Encoder], on top of [Numeric] and [Endian]);
    - [GlobalOptions::spec2istream] / [GlobalOptions::spec2ostream], which map
      a stream specifier to a stream and keep the opened streams in
      [iostream_pool] (module [Resolver]).

    Doubles are Rocq's primitive binary64 floats, so that the arithmetic of
    the encoder is the IEEE-754 arithmetic of the program and can be
    evaluated. *)

From Stdlib Require Import ZArith List Lia Floats Ascii String.
From stdpp Require Import base list strings gmap.

Local Open Scope Z_scope.

(** ** Angle conversion and the double -> integer conversion *)

Module Numeric.

(** Modelled from the spec: the typedef [float_sylph_t], which the programs
    that include this header declare and which is not part of the sources at
    hand.  The encoder takes floating-point seconds, radians, metres and
    metres per second; they are taken as the C++ [double], IEEE-754
    binary64. *)
Definition float_sylph_t : Set := float.

(** [M_PI] of <cmath>: 3.14159265358979323846 as a binary64 value. *)
Definition M_PI : float := 0x1.921fb54442d18p+1%float.

(** [deg2rad]: [degrees * M_PI / 180]. *)
Definition deg2rad (degrees : float) : float := (degrees * M_PI / 180)%float.

(** [rad2deg]: [radians * 180 / M_PI]. *)
Definition rad2deg (radians : float) : float := (radians * 180 / M_PI)%float.

(** The integral part of a double, fractional part discarded (towards zero);
    [None] for NaN and the infinities.  A finite double is
    [(-1)^s * m * 2^e]. *)
Definition ftrunc (x : float) : option Z :=
  match Prim2SF x with
  | S754_zero _ => Some 0
  | S754_finite s m e =>
      let mag := if 0 <=? e then Z.pos m * 2 ^ e else Z.pos m / 2 ^ (- e) in
      Some (if s then - mag else mag)
  | S754_infinity _ | S754_nan => None
  end.

(** The three integer types [encode_N0] declares. *)
Inductive int_type := v_u32_t | v_s32_t | v_s16_t.

Definition sizeof (T : int_type) : nat :=
  match T with v_u32_t | v_s32_t => 4%nat | v_s16_t => 2%nat end.

Definition is_signed (T : int_type) : bool :=
  match T with v_u32_t => false | v_s32_t | v_s16_t => true end.

Definition modulus (T : int_type) : Z := 2 ^ (8 * Z.of_nat (sizeof T)).

Definition min_value (T : int_type) : Z :=
  if is_signed T then - (modulus T / 2) else 0.

Definition max_value (T : int_type) : Z :=
  if is_signed T then modulus T / 2 - 1 else modulus T - 1.

Definition representable (T : int_type) (z : Z) : bool :=
  (min_value T <=? z) && (z <=? max_value T).

(** The value of type [T] congruent to [z] modulo [2^width]: what a
    wrap-around narrowing of [z] to [T] would give. *)
Definition wrap (T : int_type) (z : Z) : Z :=
  if is_signed T
  then (z + modulus T / 2) mod modulus T - modulus T / 2
  else z mod modulus T.

(** Initialising an integer variable from a double, as in
    [v_s16_t v_n(v_north() * 1E2)].  C++ [conv.fpint]: the value is truncated,
    and the conversion is undefined when the truncated value is not
    representable in [T].  What a given compiler and processor leave in the
    variable in that case is [out_of_range T x]; being stored in a [T], that
    is some value of [T]. *)
Definition float_to_int (out_of_range : int_type -> float -> Z)
    (T : int_type) (x : float) : Z :=
  match ftrunc x with
  | Some z => if representable T z then z else wrap T (out_of_range T x)
  | None => wrap T (out_of_range T x)
  end.

(** Two behaviours of compiled code on the undefined case.  [oor_x86_64]: the
    SSE2 [cvttsd2si] instruction, as GCC and Clang emit it on x86-64; it
    yields the "integer indefinite" value (sign bit only) when the source
    does not fit its destination register.  A 32-bit signed destination uses
    the 32-bit form; a 16-bit one the 32-bit form, of which the low half is
    kept; an unsigned 32-bit one the 64-bit form, of which the low half is
    kept.  [oor_wrap]: a conversion that reduces the truncated value modulo
    [2^width]. *)
Definition cvttsd2si (bits : Z) (x : float) : Z :=
  match ftrunc x with
  | Some z => if (- 2 ^ (bits - 1) <=? z) && (z <? 2 ^ (bits - 1))
              then z else - 2 ^ (bits - 1)
  | None => - 2 ^ (bits - 1)
  end.

Definition oor_x86_64 (T : int_type) (x : float) : Z :=
  match T with
  | v_s32_t | v_s16_t => cvttsd2si 32 x
  | v_u32_t => cvttsd2si 64 x
  end.

Definition oor_wrap (T : int_type) (x : float) : Z :=
  match ftrunc x with Some z => z | None => 0 end.

End Numeric.

(** ** Byte order *)

Module Endian.
Import Numeric.

(** A [char] of the buffer, as its value in 0..255. *)
Definition is_byte (b : Z) : Prop := 0 <= b < 256.

(** The [n] low-order bytes of [v], least significant first. *)
Fixpoint le_bytes (n : nat) (v : Z) : list Z :=
  match n with
  | O => []
  | S n' => v mod 256 :: le_bytes n' (v / 256)
  end.

(** The number whose little-endian digits are [bs]. *)
Fixpoint le_value (bs : list Z) : Z :=
  match bs with
  | [] => 0
  | b :: bs' => b + 256 * le_value bs'
  end.

Inductive byte_order := little_endian | big_endian.

(** The object representation of an integer of type [T] on a host: the bytes
    that [(const char * )&v] points to. *)
Definition object_bytes (host : byte_order) (T : int_type) (v : Z) : list Z :=
  match host with
  | little_endian => le_bytes (sizeof T) v
  | big_endian => rev (le_bytes (sizeof T) v)
  end.

(** Modelled from the spec: [le_char4_2_num<NumberT>] of util/endian.h, which
    is not part of the sources at hand.  The packet's multi-byte fields "are
    little-endian regardless of host byte order": the helper takes the bytes
    found at [c_le], reads [sizeof(NumberT)] of them as a little-endian
    number, and returns that number as a [NumberT] of the host. *)
Definition le_char4_2_num (T : int_type) (c_le : list Z) : Z :=
  wrap T (le_value (take (sizeof T) c_le)).

(** [*(T * )(&buf[off]) = v]: the host writes the object representation of
    [v] over [sizeof(T)] chars of [buf], from index [off] on. *)
Definition store (host : byte_order) (T : int_type)
    (off : nat) (v : Z) (buf : list Z) : list Z :=
  list_inserts off (object_bytes host T v) buf.

(** The integer of type [T] whose little-endian encoding starts at [off]. *)
Definition le_field (T : int_type) (off : nat) (buf : list Z) : Z :=
  wrap T (le_value (take (sizeof T) (drop off buf))).

End Endian.

(** ** The packet encoder *)

Module Encoder.
Import Numeric Endian.

(** The accessors of [class NAVData], as one snapshot of the values the
    virtual [const] member functions return. *)
Record NAVData := {
  longitude : float_sylph_t;
  latitude : float_sylph_t;
  height : float_sylph_t;
  v_north : float_sylph_t;
  v_east : float_sylph_t;
  v_down : float_sylph_t;
  heading : float_sylph_t;
  euler_phi : float_sylph_t;
  euler_theta : float_sylph_t;
  euler_psi : float_sylph_t;
  azimuth : float_sylph_t
}.

(** The character literals ['N'] and ['\0']. *)
Definition char_N : Z := Z.of_N (N_of_ascii "N"%char).
Definition char_NUL : Z := 0.

Section Encode.

(** The compiled code's result for an undefined double -> integer
    conversion, and the byte order of the machine that runs it. *)
Variable out_of_range : int_type -> float -> Z.
Variable host : byte_order.

Let conv := float_to_int out_of_range.

(** [NAVData::encode_N0 (itow, buf)].  [buf] is the caller's [char buf[32]];
    the result is its content after the call. *)
Definition encode_N0 (nav : NAVData) (itow : float_sylph_t) (buf : list Z)
    : list Z :=
  let t := conv v_u32_t (itow * 1000)%float in
  let lat := conv v_s32_t (rad2deg (latitude nav) * 1e7)%float in
  let lng := conv v_s32_t (rad2deg (longitude nav) * 1e7)%float in
  let h := conv v_s32_t (height nav * 1e4)%float in
  let v_n := conv v_s16_t (v_north nav * 1e2)%float in
  let v_e := conv v_s16_t (v_east nav * 1e2)%float in
  let v_d := conv v_s16_t (v_down nav * 1e2)%float in
  let psi := conv v_s16_t (rad2deg (heading nav) * 1e2)%float in
  let theta := conv v_s16_t (rad2deg (euler_theta nav) * 1e2)%float in
  let phi := conv v_s16_t (rad2deg (euler_phi nav) * 1e2)%float in
  let buf := <[0%nat := char_N]> buf in
  let buf := <[1%nat := char_NUL]> buf in
  let buf := <[2%nat := char_NUL]> buf in
  let buf := <[3%nat := char_NUL]> buf in
  let put T off v := store host T off (le_char4_2_num T (object_bytes host T v)) in
  let buf := put v_u32_t 4%nat t buf in
  let buf := put v_s32_t 8%nat lat buf in
  let buf := put v_s32_t 12%nat lng buf in
  let buf := put v_s32_t 16%nat h buf in
  let buf := put v_s16_t 20%nat v_n buf in
  let buf := put v_s16_t 22%nat v_e buf in
  let buf := put v_s16_t 24%nat v_d buf in
  let buf := put v_s16_t 26%nat psi buf in
  let buf := put v_s16_t 28%nat theta buf in
  let buf := put v_s16_t 30%nat phi buf in
  buf.

End Encode.

(** The layout of the packet as the format's table gives it: for each
    multi-byte field its integer type, its offset, and the double it is
    narrowed from (seconds * 1000; degrees * 1e7; metres * 1e4; m/s * 1e2;
    degrees * 1e2). *)
Definition fields (nav : NAVData) (itow : float_sylph_t)
    : list (int_type * nat * float) :=
  [ (v_u32_t,  4%nat, (itow * 1000)%float);
    (v_s32_t,  8%nat, (rad2deg (latitude nav) * 1e7)%float);
    (v_s32_t, 12%nat, (rad2deg (longitude nav) * 1e7)%float);
    (v_s32_t, 16%nat, (height nav * 1e4)%float);
    (v_s16_t, 20%nat, (v_north nav * 1e2)%float);
    (v_s16_t, 22%nat, (v_east nav * 1e2)%float);
    (v_s16_t, 24%nat, (v_down nav * 1e2)%float);
    (v_s16_t, 26%nat, (rad2deg (heading nav) * 1e2)%float);
    (v_s16_t, 28%nat, (rad2deg (euler_theta nav) * 1e2)%float);
    (v_s16_t, 30%nat, (rad2deg (euler_phi nav) * 1e2)%float) ].

(** The doubles 1.23 and 12.345 of the C++ literals (nearest binary64). *)
Definition double_1_23 : float := 0x1.3ae147ae147aep+0%float.
Definition double_12_345 : float := 0x1.8b0a3d70a3d71p+3%float.

(** A navigation state at latitude 10 deg, longitude -20 deg, height 100 m,
    1.23 m/s northwards, heading 45 deg. *)
Definition nav_sample : NAVData :=
  {| longitude := deg2rad (-20); latitude := deg2rad 10; height := 100%float;
     v_north := double_1_23; v_east := 0%float; v_down := 0%float;
     heading := deg2rad 45; euler_phi := 0%float; euler_theta := 0%float;
     euler_psi := 0%float; azimuth := 0%float |}.

(** The same state 300 km up: height * 1e4 = 3e9 exceeds a 32-bit int. *)
Definition nav_high : NAVData :=
  {| longitude := deg2rad (-20); latitude := deg2rad 10;
     height := 300000%float;
     v_north := double_1_23; v_east := 0%float; v_down := 0%float;
     heading := deg2rad 45; euler_phi := 0%float; euler_theta := 0%float;
     euler_psi := 0%float; azimuth := 0%float |}.

(** A caller's buffer before the call, and another one. *)
Definition buf_sample : list Z := repeat 255 32.
Definition buf_zero : list Z := repeat 0 32.

(** A state with v_down = -1.999 m/s (nearest binary64): v_down * 1e2 is
    about -199.9, of which the conversion keeps -199. *)
Definition nav_fraction : NAVData :=
  {| longitude := deg2rad (-20); latitude := deg2rad 10; height := 100%float;
     v_north := double_1_23; v_east := 0%float;
     v_down := (-0x1.ffbe76c8b4396p+0)%float;
     heading := deg2rad 45; euler_phi := 0%float; euler_theta := 0%float;
     euler_psi := 0%float; azimuth := 0%float |}.

(** [nav_sample] seen through a view whose two unread accessors differ. *)
Definition nav_sample' : NAVData :=
  {| longitude := deg2rad (-20); latitude := deg2rad 10; height := 100%float;
     v_north := double_1_23; v_east := 0%float; v_down := 0%float;
     heading := deg2rad 45; euler_phi := 0%float; euler_theta := 0%float;
     euler_psi := 1%float; azimuth := 2%float |}.

(** The statement that the height field wraps around: whatever the compiled
    conversion, the field holds the truncated value reduced modulo 2^32. *)
Definition height_wraps (out_of_range : int_type -> float -> Z)
    (host : byte_order) : Prop :=
  forall nav itow buf z,
    length buf = 32%nat ->
    ftrunc (height nav * 1e4)%float = Some z ->
    le_field v_s32_t 16 (encode_N0 out_of_range host nav itow buf) = wrap v_s32_t z.

End Encoder.

(** ** Specifier resolution and the stream pool *)

Module Resolver.

(** *** C strings in memory *)

(** A [const char *]: an object of the program (a block of chars) and an
    index into it.  Two pointers are equal when both components are. *)
Definition ptr : Type := nat * nat.

Abbreviation memory := (gmap nat (list ascii)).

Definition NUL : ascii := Ascii.zero.
Definition newline : ascii := "010"%char.

Definition lit (s : string) : list ascii := list_ascii_of_string s.

(** The chars before the first terminator; [None] when the block ends
    without one. *)
Fixpoint until_NUL (cs : list ascii) : option (list ascii) :=
  match cs with
  | [] => None
  | c :: cs' =>
      if Ascii.eqb c NUL then Some []
      else match until_NUL cs' with
           | Some s => Some (c :: s)
           | None => None
           end
  end.

(** The string a pointer designates. *)
Definition c_str (m : memory) (p : ptr) : option (list ascii) :=
  match m !! p.1 with
  | Some cs => until_NUL (drop p.2 cs)
  | None => None
  end.

Definition code (c : ascii) : Z := Z.of_N (N_of_ascii c).

(** [strcmp]: zero, or the difference of the first two chars that differ. *)
Fixpoint strcmp (a b : list ascii) : Z :=
  match a, b with
  | [], [] => 0
  | [], d :: _ => - code d
  | c :: _, [] => code c
  | c :: a', d :: b' => if Ascii.eqb c d then strcmp a' b' else code c - code d
  end.

Fixpoint starts_with (needle hay : list ascii) : bool :=
  match needle, hay with
  | [], _ => true
  | _ :: _, [] => false
  | c :: needle', d :: hay' => Ascii.eqb c d && starts_with needle' hay'
  end.

(** [strstr]: the index of the first occurrence of [needle] in [hay]. *)
Fixpoint strstr (hay needle : list ascii) : option nat :=
  if starts_with needle hay then Some 0%nat
  else match hay with
       | [] => None
       | _ :: hay' =>
           match strstr hay' needle with
           | Some i => Some (S i)
           | None => None
           end
       end.

(** [strchr]: the index of the first [c] in [s]. *)
Fixpoint strchr (s : list ascii) (c : ascii) : option nat :=
  match s with
  | [] => None
  | d :: s' =>
      if Ascii.eqb d c then Some 0%nat
      else match strchr s' c with
           | Some i => Some (S i)
           | None => None
           end
  end.

Definition isspace (c : ascii) : bool :=
  let n := code c in (n =? 32) || ((9 <=? n) && (n <=? 13)).

Definition digit (c : ascii) : option Z :=
  let n := code c in
  if (48 <=? n) && (n <=? 57) then Some (n - 48) else None.

Fixpoint skip_spaces (s : list ascii) : list ascii :=
  match s with
  | c :: s' => if isspace c then skip_spaces s' else s
  | [] => []
  end.

Fixpoint digits_value (acc : Z) (s : list ascii) : Z :=
  match s with
  | c :: s' =>
      match digit c with
      | Some d => digits_value (10 * acc + d) s'
      | None => acc
      end
  | [] => acc
  end.

(** The number a text denotes for [atoi]: white space, an optional sign, then
    decimal digits up to the first other char. *)
Definition decimal_value (s : list ascii) : Z :=
  match skip_spaces s with
  | c :: s' =>
      if Ascii.eqb c "-"%char then - digits_value 0 s'
      else if Ascii.eqb c "+"%char then digits_value 0 s'
      else digits_value 0 (c :: s')
  | [] => 0
  end.

(** [atoi] of <cstdlib>.  Its result is an [int]: the number the text
    denotes when an [int] holds it.  For any other text C leaves the result
    open; [overflow] is the number the C library at hand comes up with for
    the text, of which the [int] returned keeps the low 32 bits. *)
Definition atoi (overflow : list ascii -> Z) (s : list ascii) : Z :=
  let z := decimal_value s in
  if Numeric.representable Numeric.v_s32_t z then z
  else Numeric.wrap Numeric.v_s32_t (overflow s).

(** The C library of glibc: [atoi (s)] is [(int) strtol (s, NULL, 10)], and
    [strtol] gives the number as a [long], held at [LONG_MIN] and [LONG_MAX]
    when it lies beyond them. *)
Definition strtol_saturated (s : list ascii) : Z :=
  Z.max (- 2 ^ 63) (Z.min (2 ^ 63 - 1) (decimal_value s)).

(** *** Streams, the pool and the process *)

Inductive openmode := ios_in | ios_out.

(** An object made by [new ComportStream(name)] or
    [new std::fstream(name, mode | std::ios::binary)]. *)
Inductive stream :=
| ComportStream (name : list ascii) (baudrate : option Z)
| fstream (name : list ascii) (mode : openmode) (failbit : bool).

(** What a resolution returns a reference to: [std::cin], [std::cout], or
    the [i]-th object the process has created. *)
Inductive stream_ref := std_cin | std_cout | stream_at (i : nat).

Record world := World {
  mem : memory;
  iostream_pool : gmap ptr nat;
  streams : list stream;
  cerr : list ascii;
  stdin_binary : bool;
  stdout_binary : bool
}.

(** What is outside the program: the macros of the build, the serial
    devices and the file system. *)
Record system := System {
  defined_WIN32 : bool;
  defined_MSC_VER : bool;
  (** Modelled from the spec: [ComportStream::buffer().set_baudrate] of
      util/comstream.h, which is not part of the sources at hand.  It asks
      the device for a rate and returns the rate in effect; a rate is
      "supported by the underlying device" when it comes back unchanged. *)
  com_set_baudrate : list ascii -> Z -> Z;
  (** Whether opening the named file in the given mode succeeds. *)
  file_opens : list ascii -> openmode -> bool;
  (** What the C library's [atoi] makes of a text whose number is beyond
      [int] (see [atoi]). *)
  atoi_overflow : list ascii -> Z
}.

Definition COMPORT_PREFIX (sys : system) : list ascii :=
  if defined_WIN32 sys then lit "COM" else lit "/dev/tty".

Inductive outcome (A : Type) :=
| Returns (a : A) (w : world)
| Exits (status : Z) (w : world)
| Undefined.
Arguments Returns {A} a w.
Arguments Exits {A} status w.
Arguments Undefined {A}.

Definition M (A : Type) : Type := world -> outcome A.

Definition ret {A} (a : A) : M A := fun w => Returns a w.

Definition bind {A B} (m : M A) (k : A -> M B) : M B :=
  fun w =>
    match m w with
    | Returns a w' => k a w'
    | Exits status w' => Exits status w'
    | Undefined => Undefined
    end.

Notation "x <- m ;; k" := (bind m (fun x => k))
  (at level 200, m at level 99, k at level 200, only parsing).
Notation "m ;;; k" := (bind m (fun _ => k))
  (at level 200, k at level 200, only parsing).

(** [exit(status)]. *)
Definition exit {A} (status : Z) : M A := fun w => Exits status w.

(** [std::cerr << s]. *)
Definition put_cerr (s : list ascii) : M unit := fun w =>
  Returns tt (World (mem w) (iostream_pool w) (streams w) (cerr w ++ s)
                    (stdin_binary w) (stdout_binary w)).

(** [std::cerr << std::endl]. *)
Definition endl : M unit := put_cerr [newline].

(** Reading the string at a pointer; undefined unless it is one. *)
Definition load (p : ptr) : M (list ascii) := fun w =>
  match c_str (mem w) p with
  | Some s => Returns s w
  | None => Undefined
  end.

(** [*p = c]. *)
Definition poke (p : ptr) (c : ascii) : M unit := fun w =>
  match mem w !! p.1 with
  | Some cs =>
      if decide (p.2 < length cs)%nat
      then Returns tt (World (<[p.1 := <[p.2 := c]> cs]> (mem w))
                             (iostream_pool w) (streams w) (cerr w)
                             (stdin_binary w) (stdout_binary w))
      else Undefined
  | None => Undefined
  end.

(** [new ...]: the object is added to those of the process. *)
Definition new_stream (s : stream) : M nat := fun w =>
  Returns (length (streams w))
          (World (mem w) (iostream_pool w) (streams w ++ [s]) (cerr w)
                 (stdin_binary w) (stdout_binary w)).

(** [iostream_pool.find(spec)]: the map compares the pointers. *)
Definition pool_find (spec : ptr) : M (option nat) := fun w =>
  Returns (iostream_pool w !! spec) w.

(** [iostream_pool[spec] = s]. *)
Definition pool_assign (spec : ptr) (s : nat) : M unit := fun w =>
  Returns tt (World (mem w) (<[spec := s]> (iostream_pool w)) (streams w)
                    (cerr w) (stdin_binary w) (stdout_binary w)).

(** [setmode(fileno(stdin), O_BINARY)], compiled under [_MSC_VER] only. *)
Definition setmode_stdin (sys : system) : M unit := fun w =>
  Returns tt (World (mem w) (iostream_pool w) (streams w) (cerr w)
                    (defined_MSC_VER sys || stdin_binary w) (stdout_binary w)).

Definition setmode_stdout (sys : system) : M unit := fun w =>
  Returns tt (World (mem w) (iostream_pool w) (streams w) (cerr w)
                    (stdin_binary w) (defined_MSC_VER sys || stdout_binary w)).

(** [com.buffer().set_baudrate(baudrate)]: the device takes the rate it
    answers with. *)
Definition buffer_set_baudrate (sys : system) (com : nat) (baudrate : Z) : M Z :=
  fun w =>
    match streams w !! com with
    | Some (ComportStream name _) =>
        let r := com_set_baudrate sys name baudrate in
        Returns r (World (mem w) (iostream_pool w)
                         (<[com := ComportStream name (Some r)]> (streams w))
                         (cerr w) (stdin_binary w) (stdout_binary w))
    | _ => Undefined
    end.

(** [GlobalOptions::set_baudrate]. *)
Definition set_baudrate (sys : system) (com : nat) (baudrate_spec : ptr) : M unit :=
  text <- load baudrate_spec ;;
  let baudrate := atoi (atoi_overflow sys) text in
  r <- buffer_set_baudrate sys com baudrate ;;
  if negb (baudrate =? r) then
    put_cerr (lit " => Unsupported baudrate!!") ;;; endl ;;;
    exit (-1)
  else ret tt.

(** The branch for COM ports; it reads the same in [spec2istream] (lines
    146-161) and in [spec2ostream] (lines 188-203). *)
Definition comport_branch (sys : system) (spec : ptr) (s : list ascii) : M stream_ref :=
  put_cerr s ;;; endl ;;;
  baudrate_spec <-
    match strchr s ":"%char with
    | Some i =>
        poke (spec.1, (spec.2 + i)%nat) NUL ;;;
        ret (Some (spec.1, S (spec.2 + i)))
    | None => ret None
    end ;;
  found <- pool_find spec ;;
  match found with
  | None =>
      name <- load spec ;;
      com <- new_stream (ComportStream name None) ;;
      match baudrate_spec with
      | Some b => set_baudrate sys com b
      | None => ret tt
      end ;;;
      pool_assign spec com ;;;
      ret (stream_at com)
  | Some pooled => ret (stream_at pooled)
  end.

(** [GlobalOptions::spec2istream]. *)
Definition spec2istream (sys : system) (spec : ptr) (force_fstream : bool)
    : M stream_ref :=
  s <- load spec ;;
  if negb force_fstream && (strcmp s (lit "-") =? 0) then
    put_cerr (lit "[std::cin]") ;;; endl ;;;
    setmode_stdin sys ;;;
    ret std_cin
  else if negb force_fstream
          && bool_decide (strstr s (COMPORT_PREFIX sys) = Some 0%nat) then
    comport_branch sys spec s
  else
    put_cerr s ;;;
    fin <- new_stream (fstream s ios_in (negb (file_opens sys s ios_in))) ;;
    if negb (file_opens sys s ios_in) then
      put_cerr (lit " => File not found!!") ;;; endl ;;;
      exit (-1)
    else
      endl ;;;
      pool_assign spec fin ;;;
      ret (stream_at fin).

(** [GlobalOptions::spec2ostream]. *)
Definition spec2ostream (sys : system) (spec : ptr) (force_fstream : bool)
    : M stream_ref :=
  s <- load spec ;;
  if negb force_fstream && (strcmp s (lit "-") =? 0) then
    put_cerr (lit "[std::cout]") ;;; endl ;;;
    setmode_stdout sys ;;;
    ret std_cout
  else if negb force_fstream
          && bool_decide (strstr s (COMPORT_PREFIX sys) = Some 0%nat) then
    comport_branch sys spec s
  else
    put_cerr s ;;;
    fout <- new_stream (fstream s ios_out (negb (file_opens sys s ios_out))) ;;
    endl ;;;
    pool_assign spec fout ;;;
    ret (stream_at fout).

(** The two directions of the spec's [resolve]. *)
Inductive direction := input | output.

Definition resolve (sys : system) (dir : direction) : ptr -> bool -> M stream_ref :=
  match dir with
  | input => spec2istream sys
  | output => spec2ostream sys
  end.

(** Observations of an outcome. *)
Definition returned {A} (o : outcome A) : option A :=
  match o with Returns a _ => Some a | _ => None end.

Definition final_world {A} (o : outcome A) : option world :=
  match o with Returns _ w | Exits _ w => Some w | Undefined => None end.

(** The memory once the char at index [i] of the string at [spec] has been
    overwritten with the terminator. *)
Definition cut_memory (m : memory) (spec : ptr) (i : nat) : memory :=
  match m !! spec.1 with
  | Some cs => <[spec.1 := <[(spec.2 + i)%nat := NUL]> cs]> m
  | None => m
  end.

(** The memory the COM-port branch leaves for a specifier that read [s]. *)
Definition memory_after_comport (m : memory) (spec : ptr) (s : list ascii) : memory :=
  match strchr s ":"%char with
  | Some i => cut_memory m spec i
  | None => m
  end.

(** The device name of a specifier: the text before the first [':']. *)
Definition device_name (s : list ascii) : list ascii :=
  match strchr s ":"%char with
  | Some i => take i s
  | None => s
  end.

(** The caller stores a new string (with its terminator) in a block. *)
Definition caller_writes (block : nat) (s : string) (w : world) : world :=
  World (<[block := lit s ++ [NUL]]> (mem w)) (iostream_pool w) (streams w)
        (cerr w) (stdin_binary w) (stdout_binary w).

(** Sample systems and processes.  [posix_9600]: a POSIX build whose serial
    devices run at 9600 baud only and where files named "nav.log" exist.
    [win32_any]: a Windows/MSVC build whose devices take any rate. *)
Definition posix_9600 : system :=
  System false false (fun _ _ => 9600)
         (fun name _ => bool_decide (name = lit "nav.log"))
         strtol_saturated.

Definition win32_any : system :=
  System true true (fun _ rate => rate) (fun _ _ => true) strtol_saturated.

(** A process that has opened nothing yet, with one string per block. *)
Definition fresh (blocks : list string) : world :=
  World (list_to_map (imap (fun i s => (i, lit s ++ [NUL])) blocks))
        ∅ [] [] false false.

(** The world an outcome leaves (the empty process if there is none). *)
Definition world_after {A} (o : outcome A) : world :=
  match final_world o with
  | Some w => w
  | None => fresh []
  end.

(** A specifier takes the file route when [force_fstream] is set, or when it
    is neither "-" nor prefixed like a COM port. *)
Definition file_route (sys : system) (force_fstream : bool) (s : list ascii) : Prop :=
  force_fstream = true
  \/ (s <> lit "-" /\ starts_with (COMPORT_PREFIX sys) s = false).

(** Pool reuse stated for every specifier: whenever a resolution returns, the
    same resolution made again returns the same stream and creates none. *)
Definition every_specifier_reuses_pool (sys : system) : Prop :=
  forall w spec force_fstream dir r w1,
    resolve sys dir spec force_fstream w = Returns r w1 ->
    exists w2,
      resolve sys dir spec force_fstream w1 = Returns r w2
      /\ streams w2 = streams w1.

(** Fatal baud rates stated for every process: a COM-port specifier whose
    rate the device does not take never yields a stream. *)
Definition unsupported_baudrate_never_returns (sys : system) : Prop :=
  forall w spec dir s i,
    c_str (mem w) spec = Some s ->
    starts_with (COMPORT_PREFIX sys) s = true ->
    strchr s ":"%char = Some i ->
    com_set_baudrate sys (take i s) (atoi (atoi_overflow sys) (drop (S i) s))
      <> atoi (atoi_overflow sys) (drop (S i) s) ->
    returned (resolve sys dir spec false w) = None.

End Resolver.

(** ** The options of the tool *)

Module Options.
Import Numeric Resolver.

(** [DBL_MAX] of <cfloat>. *)
Definition DBL_MAX : float := 0x1.fffffffffffffp+1023%float.

(** The data members of [struct GlobalOptions], but for [iostream_pool],
    which is the pool of the process in [Resolver.world].  [int] members are
    integers; [_out] refers to a stream. *)
Record GlobalOptions := Build_GlobalOptions {
  dump_update : bool;
  dump_correct : bool;
  init_yaw_deg : float_sylph_t;
  start_gpstime : float_sylph_t;
  start_gpswn : Z;
  end_gpstime : float_sylph_t;
  end_gpswn : Z;
  est_bias : bool;
  use_udkf : bool;
  use_magnet : bool;
  mag_heading_accuracy_deg : float_sylph_t;
  yaw_correct_with_mag_when_speed_less_than_ms : float_sylph_t;
  out_is_N_packet : bool;
  _out : stream_ref;
  in_sylphide : bool;
  out_sylphide : bool
}.

(** Assignment to one member. *)
Definition set_dump_update (v : bool) (o : GlobalOptions) : GlobalOptions :=
  Build_GlobalOptions v (dump_correct o) (init_yaw_deg o) (start_gpstime o)
    (start_gpswn o) (end_gpstime o) (end_gpswn o) (est_bias o) (use_udkf o)
    (use_magnet o) (mag_heading_accuracy_deg o)
    (yaw_correct_with_mag_when_speed_less_than_ms o) (out_is_N_packet o)
    (_out o) (in_sylphide o) (out_sylphide o).

Definition set_dump_correct (v : bool) (o : GlobalOptions) : GlobalOptions :=
  Build_GlobalOptions (dump_update o) v (init_yaw_deg o) (start_gpstime o)
    (start_gpswn o) (end_gpstime o) (end_gpswn o) (est_bias o) (use_udkf o)
    (use_magnet o) (mag_heading_accuracy_deg o)
    (yaw_correct_with_mag_when_speed_less_than_ms o) (out_is_N_packet o)
    (_out o) (in_sylphide o) (out_sylphide o).

Definition set_init_yaw_deg (v : float_sylph_t) (o : GlobalOptions) : GlobalOptions :=
  Build_GlobalOptions (dump_update o) (dump_correct o) v (start_gpstime o)
    (start_gpswn o) (end_gpstime o) (end_gpswn o) (est_bias o) (use_udkf o)
    (use_magnet o) (mag_heading_accuracy_deg o)
    (yaw_correct_with_mag_when_speed_less_than_ms o) (out_is_N_packet o)
    (_out o) (in_sylphide o) (out_sylphide o).

Definition set_start_gpstime (v : float_sylph_t) (o : GlobalOptions) : GlobalOptions :=
  Build_GlobalOptions (dump_update o) (dump_correct o) (init_yaw_deg o) v
    (start_gpswn o) (end_gpstime o) (end_gpswn o) (est_bias o) (use_udkf o)
    (use_magnet o) (mag_heading_accuracy_deg o)
    (yaw_correct_with_mag_when_speed_less_than_ms o) (out_is_N_packet o)
    (_out o) (in_sylphide o) (out_sylphide o).

Definition set_start_gpswn (v : Z) (o : GlobalOptions) : GlobalOptions :=
  Build_GlobalOptions (dump_update o) (dump_correct o) (init_yaw_deg o)
    (start_gpstime o) v (end_gpstime o) (end_gpswn o) (est_bias o)
    (use_udkf o) (use_magnet o) (mag_heading_accuracy_deg o)
    (yaw_correct_with_mag_when_speed_less_than_ms o) (out_is_N_packet o)
    (_out o) (in_sylphide o) (out_sylphide o).

Definition set_end_gpstime (v : float_sylph_t) (o : GlobalOptions) : GlobalOptions :=
  Build_GlobalOptions (dump_update o) (dump_correct o) (init_yaw_deg o)
    (start_gpstime o) (start_gpswn o) v (end_gpswn o) (est_bias o)
    (use_udkf o) (use_magnet o) (mag_heading_accuracy_deg o)
    (yaw_correct_with_mag_when_speed_less_than_ms o) (out_is_N_packet o)
    (_out o) (in_sylphide o) (out_sylphide o).

Definition set_end_gpswn (v : Z) (o : GlobalOptions) : GlobalOptions :=
  Build_GlobalOptions (dump_update o) (dump_correct o) (init_yaw_deg o)
    (start_gpstime o) (start_gpswn o) (end_gpstime o) v (est_bias o)
    (use_udkf o) (use_magnet o) (mag_heading_accuracy_deg o)
    (yaw_correct_with_mag_when_speed_less_than_ms o) (out_is_N_packet o)
    (_out o) (in_sylphide o) (out_sylphide o).

Definition set_est_bias (v : bool) (o : GlobalOptions) : GlobalOptions :=
  Build_GlobalOptions (dump_update o) (dump_correct o) (init_yaw_deg o)
    (start_gpstime o) (start_gpswn o) (end_gpstime o) (end_gpswn o) v
    (use_udkf o) (use_magnet o) (mag_heading_accuracy_deg o)
    (yaw_correct_with_mag_when_speed_less_than_ms o) (out_is_N_packet o)
    (_out o) (in_sylphide o) (out_sylphide o).

Definition set_use_udkf (v : bool) (o : GlobalOptions) : GlobalOptions :=
  Build_GlobalOptions (dump_update o) (dump_correct o) (init_yaw_deg o)
    (start_gpstime o) (start_gpswn o) (end_gpstime o) (end_gpswn o)
    (est_bias o) v (use_magnet o) (mag_heading_accuracy_deg o)
    (yaw_correct_with_mag_when_speed_less_than_ms o) (out_is_N_packet o)
    (_out o) (in_sylphide o) (out_sylphide o).

Definition set_use_magnet (v : bool) (o : GlobalOptions) : GlobalOptions :=
  Build_GlobalOptions (dump_update o) (dump_correct o) (init_yaw_deg o)
    (start_gpstime o) (start_gpswn o) (end_gpstime o) (end_gpswn o)
    (est_bias o) (use_udkf o) v (mag_heading_accuracy_deg o)
    (yaw_correct_with_mag_when_speed_less_than_ms o) (out_is_N_packet o)
    (_out o) (in_sylphide o) (out_sylphide o).

Definition set_mag_heading_accuracy_deg (v : float_sylph_t) (o : GlobalOptions) : GlobalOptions :=
  Build_GlobalOptions (dump_update o) (dump_correct o) (init_yaw_deg o)
    (start_gpstime o) (start_gpswn o) (end_gpstime o) (end_gpswn o)
    (est_bias o) (use_udkf o) (use_magnet o) v
    (yaw_correct_with_mag_when_speed_less_than_ms o) (out_is_N_packet o)
    (_out o) (in_sylphide o) (out_sylphide o).

Definition set_yaw_correct_with_mag_when_speed_less_than_ms (v : float_sylph_t) (o : GlobalOptions) : GlobalOptions :=
  Build_GlobalOptions (dump_update o) (dump_correct o) (init_yaw_deg o)
    (start_gpstime o) (start_gpswn o) (end_gpstime o) (end_gpswn o)
    (est_bias o) (use_udkf o) (use_magnet o) (mag_heading_accuracy_deg o) v
    (out_is_N_packet o) (_out o) (in_sylphide o) (out_sylphide o).

Definition set_out_is_N_packet (v : bool) (o : GlobalOptions) : GlobalOptions :=
  Build_GlobalOptions (dump_update o) (dump_correct o) (init_yaw_deg o)
    (start_gpstime o) (start_gpswn o) (end_gpstime o) (end_gpswn o)
    (est_bias o) (use_udkf o) (use_magnet o) (mag_heading_accuracy_deg o)
    (yaw_correct_with_mag_when_speed_less_than_ms o) v (_out o)
    (in_sylphide o) (out_sylphide o).

Definition set_out (v : stream_ref) (o : GlobalOptions) : GlobalOptions :=
  Build_GlobalOptions (dump_update o) (dump_correct o) (init_yaw_deg o)
    (start_gpstime o) (start_gpswn o) (end_gpstime o) (end_gpswn o)
    (est_bias o) (use_udkf o) (use_magnet o) (mag_heading_accuracy_deg o)
    (yaw_correct_with_mag_when_speed_less_than_ms o) (out_is_N_packet o) v
    (in_sylphide o) (out_sylphide o).

Definition set_in_sylphide (v : bool) (o : GlobalOptions) : GlobalOptions :=
  Build_GlobalOptions (dump_update o) (dump_correct o) (init_yaw_deg o)
    (start_gpstime o) (start_gpswn o) (end_gpstime o) (end_gpswn o)
    (est_bias o) (use_udkf o) (use_magnet o) (mag_heading_accuracy_deg o)
    (yaw_correct_with_mag_when_speed_less_than_ms o) (out_is_N_packet o)
    (_out o) v (out_sylphide o).

Definition set_out_sylphide (v : bool) (o : GlobalOptions) : GlobalOptions :=
  Build_GlobalOptions (dump_update o) (dump_correct o) (init_yaw_deg o)
    (start_gpstime o) (start_gpswn o) (end_gpstime o) (end_gpswn o)
    (est_bias o) (use_udkf o) (use_magnet o) (mag_heading_accuracy_deg o)
    (yaw_correct_with_mag_when_speed_less_than_ms o) (out_is_N_packet o)
    (_out o) (in_sylphide o) v.

(** The constructor [GlobalOptions()]. *)
Definition GlobalOptions_init : GlobalOptions :=
  {| dump_update := true;
     dump_correct := false;
     init_yaw_deg := 0%float;
     start_gpstime := 0%float;
     end_gpstime := DBL_MAX;
     start_gpswn := 0;
     end_gpswn := 0;
     est_bias := true;
     use_udkf := false;
     use_magnet := false;
     mag_heading_accuracy_deg := 3%float;
     yaw_correct_with_mag_when_speed_less_than_ms := 5%float;
     out_is_N_packet := false;
     _out := std_cout;
     in_sylphide := false;
     out_sylphide := false |}.

(** [is_time_in_range]: [(time >= start_gpstime) && (time <= end_gpstime)],
    for a [double] time. *)
Definition is_time_in_range (o : GlobalOptions) (time : float) : bool :=
  (start_gpstime o <=? time)%float && (time <=? end_gpstime o)%float.

(** [out()]. *)
Definition out (o : GlobalOptions) : stream_ref := _out o.

(** What [get_value] returns when it is not [NULL]: a pointer [offset] chars
    into [spec], or the string literal ["true"]. *)
Inductive value_ref := in_spec (offset : nat) | literal_true.

(** [GlobalOptions::get_value]. *)
Definition get_value (spec key : list ascii) (accept_no_value : bool)
    : option value_ref :=
  if negb (bool_decide (strstr spec (lit "--") = Some 0%nat)) then None
  else
    let offset := 2%nat in
    if negb (bool_decide (strstr (drop offset spec) key = Some 0%nat)) then None
    else
      let offset := (offset + length key)%nat in
      if bool_decide (strstr (drop offset spec) (lit "=") = Some 0%nat)
      then Some (in_spec (offset + 1))
      else if accept_no_value then Some literal_true else None.

(** The string a returned value designates. *)
Definition value_text (spec : list ascii) (value : value_ref) : list ascii :=
  match value with
  | in_spec offset => drop offset spec
  | literal_true => lit "true"
  end.

(** [GlobalOptions::is_true]. *)
Definition is_true (value : list ascii) : bool :=
  (strcmp value (lit "on") =? 0) || (strcmp value (lit "true") =? 0).

(** The functions of the C and C++ libraries that [check_spec] calls and
    whose results are taken as given: [atof]; the two conversions
    ["%i:%lf"] of [sscanf] ([Some] of the two values assigned when both
    succeed, so that [sscanf] returns 2); the text [operator<<] prints for a
    [double] and for an [int]; and the result of a double -> [int]
    conversion that C++ leaves undefined. *)
Record runtime := Runtime {
  atof : list ascii -> float;
  scan_i_lf : list ascii -> option (Z * float);
  show_double : float -> list ascii;
  show_int : Z -> list ascii;
  out_of_range : int_type -> float -> Z
}.

(** [sscanf(spec, format, &dummy_i, &dummy_d) == 2] for a format made of the
    literal text [literal] followed by ["%i:%lf"]: the literal text has to
    be matched char by char before any conversion is tried. *)
Definition sscanf_i_lf (rt : runtime) (literal s : list ascii) : option (Z * float) :=
  if starts_with literal s then scan_i_lf rt (drop (length literal) s) else None.

(** An [int] converted to [double] (exact for 32-bit values). *)
Definition int_to_double (z : Z) : float :=
  match z with
  | Z0 => 0%float
  | Zpos p => SF2Prim (S754_finite false p 0)
  | Zneg p => SF2Prim (S754_finite true p 0)
  end.

Definition on_off (b : bool) : list ascii := if b then lit "on" else lit "off".

(** The macro [CHECK_OPTION(name, novalue, operation, disp)]: when
    [get_value] finds the option, run the assignment on its value, print
    [name: disp] and return [true]; go on with the rest otherwise. *)
Definition CHECK_OPTION (name : string) (novalue : bool)
    (operation : list ascii -> GlobalOptions)
    (disp : GlobalOptions -> list ascii)
    (s : list ascii)
    (rest : M (bool * GlobalOptions)) : M (bool * GlobalOptions) :=
  match get_value s (lit name) novalue with
  | Some value =>
      let o' := operation (value_text s value) in
      put_cerr (lit name) ;;; put_cerr (lit ": ") ;;; put_cerr (disp o') ;;;
      endl ;;;
      ret (true, o')
  | None => rest
  end.

(** [GlobalOptions::check_spec]: the options after the call and the value
    returned. *)
Definition check_spec (rt : runtime) (sys : system) (spec : ptr)
    (o : GlobalOptions) : M (bool * GlobalOptions) :=
  s <- load spec ;;
  match sscanf_i_lf rt (lit "--start-gpst=") s with
  | Some (dummy_i, dummy_d) =>
      let o' := set_start_gpswn dummy_i (set_start_gpstime dummy_d o) in
      put_cerr (lit "start-gpst") ;;; put_cerr (lit ": ") ;;;
      put_cerr (show_int rt (start_gpswn o')) ;;; put_cerr (lit ":") ;;;
      put_cerr (show_double rt (start_gpstime o')) ;;; endl ;;;
      ret (true, o')
  | None =>
  match sscanf_i_lf rt (lit "--end-gpst=") s with
  | Some (dummy_i, dummy_d) =>
      let o' := set_end_gpswn dummy_i (set_end_gpstime dummy_d o) in
      put_cerr (lit "end-gpst") ;;; put_cerr (lit ": ") ;;;
      put_cerr (show_int rt (end_gpswn o')) ;;; put_cerr (lit ":") ;;;
      put_cerr (show_double rt (end_gpstime o')) ;;; endl ;;;
      ret (true, o')
  | None =>
  CHECK_OPTION "start-gpst" false
    (fun value => set_start_gpstime (atof rt value) o)
    (fun o' => show_double rt (start_gpstime o')) s (
  CHECK_OPTION "start-gpswn" false
    (fun value =>
       set_start_gpswn (float_to_int (out_of_range rt) v_s32_t (atof rt value)) o)
    (fun o' => show_int rt (start_gpswn o')) s (
  CHECK_OPTION "end-gpst" false
    (fun value => set_end_gpstime (atof rt value) o)
    (fun o' => show_double rt (end_gpstime o')) s (
  CHECK_OPTION "end-gpswn" false
    (fun value => set_end_gpswn (atoi (atoi_overflow sys) value) o)
    (fun o' => show_int rt (end_gpswn o')) s (
  CHECK_OPTION "dump-update" true
    (fun value => set_dump_update (is_true value) o)
    (fun o' => on_off (dump_update o')) s (
  CHECK_OPTION "dump-correct" true
    (fun value => set_dump_correct (is_true value) o)
    (fun o' => on_off (dump_correct o')) s (
  CHECK_OPTION "init-yaw-deg" false
    (fun value => set_init_yaw_deg (atof rt value) o)
    (fun o' => show_double rt (init_yaw_deg o') ++ lit " [deg]") s (
  CHECK_OPTION "est_bias" true
    (fun value => set_est_bias (is_true value) o)
    (fun o' => on_off (est_bias o')) s (
  CHECK_OPTION "use_udkf" true
    (fun value => set_use_udkf (is_true value) o)
    (fun o' => on_off (use_udkf o')) s (
  CHECK_OPTION "use_magnet" true
    (fun value => set_use_magnet (is_true value) o)
    (fun o' => on_off (use_magnet o')) s (
  CHECK_OPTION "mag_heading_accuracy_deg" false
    (fun value => set_mag_heading_accuracy_deg (atof rt value) o)
    (fun o' => show_double rt (mag_heading_accuracy_deg o') ++ lit " [deg]") s (
  CHECK_OPTION "yaw_correct_with_mag_when_speed_less_than_ms" false
    (fun value =>
       set_yaw_correct_with_mag_when_speed_less_than_ms
         (int_to_double (atoi (atoi_overflow sys) value)) o)
    (fun o' =>
       show_double rt (yaw_correct_with_mag_when_speed_less_than_ms o')
       ++ lit " [m/s]") s (
  CHECK_OPTION "out_N_packet" true
    (fun value => set_out_is_N_packet (is_true value) o)
    (fun o' => on_off (out_is_N_packet o')) s (
  match get_value s (lit "out") false with
  | Some (in_spec offset) =>
      put_cerr (lit "out: ") ;;;
      r <- spec2ostream sys (spec.1, (spec.2 + offset)%nat) false ;;
      ret (true, set_out r o)
  | Some literal_true => fun _ => Undefined
  | None =>
  CHECK_OPTION "in_sylphide" true
    (fun value => set_in_sylphide (is_true value) o)
    (fun o' => on_off (in_sylphide o')) s (
  CHECK_OPTION "out_sylphide" true
    (fun value => set_out_sylphide (is_true value) o)
    (fun o' => on_off (out_sylphide o')) s (
  ret (false, o)))
  end)))))))))))))
  end
  end.

(** The options that [check_spec] reads with [is_true], each with the
    member it assigns. *)
Definition bool_options : list (string * (bool -> GlobalOptions -> GlobalOptions)) :=
  [ ("dump-update"%string, set_dump_update);
    ("dump-correct"%string, set_dump_correct);
    ("est_bias"%string, set_est_bias);
    ("use_udkf"%string, set_use_udkf);
    ("use_magnet"%string, set_use_magnet);
    ("out_N_packet"%string, set_out_is_N_packet);
    ("in_sylphide"%string, set_in_sylphide);
    ("out_sylphide"%string, set_out_sylphide) ].

(** A runtime for the examples: [atof] and the conversions of [sscanf] know
    a few texts only. *)
Definition runtime_sample : runtime :=
  Runtime
    (fun text => if bool_decide (text = lit "2.5") then 2.5%float else 0%float)
    (fun text => if bool_decide (text = lit "2100:345600.5")
                 then Some (2100, 345600.5%float) else None)
    (fun _ => lit "<double>")
    (fun _ => lit "<int>")
    oor_x86_64.

End Options.

(** ** The end of the process *)

Module Teardown.
Import Resolver.

(** [GlobalOptions::~GlobalOptions]: the streams on which the loop over
    [iostream_pool] calls [flush()] and then [delete], one entry after the
    other.  The loop follows the order of the keys, which for pointers into
    different objects is the implementation's; [map_to_list] stands for that
    order. *)
Definition destructor (w : world) : list nat :=
  (map_to_list (iostream_pool w)).*2.

(** The pool refers to streams the process has created, and no two keys
    refer to the same stream. *)
Definition pool_wf (w : world) : Prop :=
  (forall spec i, iostream_pool w !! spec = Some i -> (i < length (streams w))%nat)
  /\ (forall spec spec' i,
        iostream_pool w !! spec = Some i ->
        iostream_pool w !! spec' = Some i -> spec = spec').

(** The states of a process that starts with an empty pool and no stream,
    calls [spec2istream] and [spec2ostream] as it likes, and writes to its
    memory between the calls. *)
Inductive reachable (sys : system) : world -> Prop :=
| reachable_start m err bin_in bin_out :
    reachable sys (World m ∅ [] err bin_in bin_out)
| reachable_resolve w dir spec force_fstream r w' :
    reachable sys w ->
    resolve sys dir spec force_fstream w = Returns r w' ->
    reachable sys w'
| reachable_write w m :
    reachable sys w ->
    reachable sys (World m (iostream_pool w) (streams w) (cerr w)
                         (stdin_binary w) (stdout_binary w)).

(** What a resolution of [spec] may change between [w] and [w']: it adds at
    most one stream after the existing ones, either leaves the pool alone or
    stores that new stream under [spec], appends to the error stream, and
    writes to no other block of memory than the specifier's. *)
Definition resolution_frame (spec : ptr) (w w' : world) : Prop :=
  exists new text,
    streams w' = streams w ++ new
    /\ (length new <= 1)%nat
    /\ (iostream_pool w' = iostream_pool w
        \/ (iostream_pool w' = <[spec := length (streams w)]> (iostream_pool w)
            /\ length new = 1%nat))
    /\ cerr w' = cerr w ++ text
    /\ (forall b, b <> spec.1 -> mem w' !! b = mem w !! b).

(** A process that has opened "nav.log" for output, and the same process
    after it has resolved the same specifier once more. *)
Definition log_opened : world :=
  world_after (spec2ostream posix_9600 (0, 0)%nat false
                 (fresh ["nav.log"%string; "COM3:9600"%string])).

Definition log_reopened : world :=
  world_after (spec2ostream posix_9600 (0, 0)%nat false log_opened).

End Teardown.

(** * Properties *)

(** ** Little-endian digits *)

Module EndianFacts.
Import Numeric Endian.

Lemma le_bytes_length n v : length (le_bytes n v) = n.
Proof. revert v; induction n as [|n IH]; intros v; simpl; [done | by rewrite IH]. Qed.

Lemma le_bytes_is_byte n v : Forall is_byte (le_bytes n v).
Proof.
  revert v; induction n as [|n IH]; intros v; simpl; constructor; [|apply IH].
  unfold is_byte. apply Z.mod_pos_bound. lia.
Qed.

Lemma le_value_le_bytes n v : le_value (le_bytes n v) = v mod 256 ^ Z.of_nat n.
Proof.
  revert v; induction n as [|n IH]; intros v.
  - simpl. by rewrite Z.mod_1_r.
  - cbn [le_bytes le_value]. rewrite IH, Nat2Z.inj_succ, Z.pow_succ_r by lia.
    symmetry. apply Z.rem_mul_r; [lia|]. apply Z.pow_pos_nonneg; lia.
Qed.

Lemma le_bytes_le_value bs :
  Forall is_byte bs -> le_bytes (length bs) (le_value bs) = bs.
Proof.
  induction 1 as [|b bs Hb _ IH]; [done|].
  cbn [length le_bytes le_value]. unfold is_byte in Hb. f_equal.
  - rewrite (Z.mul_comm 256), Z_mod_plus_full. by apply Z.mod_small.
  - rewrite (Z.mul_comm 256), Z.div_add by lia.
    rewrite Z.div_small by lia. exact IH.
Qed.

Lemma le_bytes_value_id n v : le_bytes n (le_value (le_bytes n v)) = le_bytes n v.
Proof.
  pose proof (le_bytes_le_value _ (le_bytes_is_byte n v)) as H.
  by rewrite le_bytes_length in H.
Qed.

Lemma le_bytes_mod n v : le_bytes n (v mod 256 ^ Z.of_nat n) = le_bytes n v.
Proof. rewrite <- le_value_le_bytes. apply le_bytes_value_id. Qed.

Lemma modulus_256 T : modulus T = 256 ^ Z.of_nat (sizeof T).
Proof. by destruct T. Qed.

Lemma modulus_even T : modulus T = 2 * (modulus T / 2) /\ 0 < modulus T / 2.
Proof. destruct T; vm_compute; split; congruence. Qed.

Lemma wrap_mod T z : wrap T z mod modulus T = z mod modulus T.
Proof.
  unfold wrap. destruct (is_signed T); [|apply Z.mod_mod; destruct T; done].
  rewrite Zminus_mod, Zmod_mod, <- Zminus_mod. f_equal. lia.
Qed.

Lemma wrap_representable T z : representable T z = true -> wrap T z = z.
Proof.
  unfold representable, min_value, max_value, wrap.
  destruct (modulus_even T) as [HM Hh]. intros H.
  apply andb_prop in H as [H1 H2]. apply Z.leb_le in H1, H2.
  destruct (is_signed T).
  - rewrite Z.mod_small by lia. lia.
  - apply Z.mod_small. lia.
Qed.

Lemma wrap_in_range T z : representable T (wrap T z) = true.
Proof.
  unfold representable, min_value, max_value, wrap.
  destruct (modulus_even T) as [HM Hh].
  apply andb_true_intro.
  destruct (is_signed T); rewrite !Z.leb_le.
  - pose proof (Z.mod_pos_bound (z + modulus T / 2) (modulus T)). lia.
  - pose proof (Z.mod_pos_bound z (modulus T)). lia.
Qed.

Lemma le_bytes_wrap T z : le_bytes (sizeof T) (wrap T z) = le_bytes (sizeof T) z.
Proof.
  rewrite <- (le_bytes_mod _ (wrap T z)), <- (le_bytes_mod _ z).
  by rewrite <- modulus_256, wrap_mod.
Qed.

(** What [encode_N0] stores for a field: on either host, passing the object
    bytes of [v] through [le_char4_2_num] and storing the result leaves the
    little-endian digits of [v] in the buffer. *)
Lemma le_char4_2_num_stored host T v :
  object_bytes host T (le_char4_2_num T (object_bytes host T v))
  = le_bytes (sizeof T) v.
Proof.
  unfold le_char4_2_num, object_bytes. destruct host.
  - rewrite take_ge by (rewrite le_bytes_length; lia).
    rewrite le_bytes_wrap. apply le_bytes_value_id.
  - rewrite take_ge by (rewrite length_rev, le_bytes_length; lia).
    rewrite le_bytes_wrap.
    pose proof (le_bytes_le_value (rev (le_bytes (sizeof T) v))) as H.
    rewrite length_rev, le_bytes_length in H. rewrite H.
    + apply rev_involutive.
    + apply Forall_rev, le_bytes_is_byte.
Qed.

Lemma le_field_of_bytes T off buf v :
  take (sizeof T) (drop off buf) = le_bytes (sizeof T) v ->
  le_field T off buf = wrap T v.
Proof.
  unfold le_field. intros ->.
  rewrite le_value_le_bytes, <- modulus_256.
  unfold wrap. destruct (is_signed T).
  - f_equal. rewrite Zplus_mod, Zmod_mod, <- Zplus_mod. done.
  - apply Z.mod_mod. by destruct T.
Qed.

End EndianFacts.

(** ** The packet encoder *)

Module EncoderFacts.
Import Numeric Endian EndianFacts Encoder.

Section Layout.

Variable out_of_range : int_type -> float -> Z.
Variable host : byte_order.

Local Abbreviation conv := (float_to_int out_of_range).

(** The whole buffer after the call, segment by segment. *)
Lemma encode_N0_bytes nav itow buf :
  length buf = 32%nat ->
  encode_N0 out_of_range host nav itow buf =
    [char_N; char_NUL; char_NUL; char_NUL]
    ++ le_bytes 4 (conv v_u32_t (itow * 1000)%float)
    ++ le_bytes 4 (conv v_s32_t (rad2deg (latitude nav) * 1e7)%float)
    ++ le_bytes 4 (conv v_s32_t (rad2deg (longitude nav) * 1e7)%float)
    ++ le_bytes 4 (conv v_s32_t (height nav * 1e4)%float)
    ++ le_bytes 2 (conv v_s16_t (v_north nav * 1e2)%float)
    ++ le_bytes 2 (conv v_s16_t (v_east nav * 1e2)%float)
    ++ le_bytes 2 (conv v_s16_t (v_down nav * 1e2)%float)
    ++ le_bytes 2 (conv v_s16_t (rad2deg (heading nav) * 1e2)%float)
    ++ le_bytes 2 (conv v_s16_t (rad2deg (euler_theta nav) * 1e2)%float)
    ++ le_bytes 2 (conv v_s16_t (rad2deg (euler_phi nav) * 1e2)%float).
Proof.
  intros Hlen. unfold encode_N0, store.
  rewrite !le_char4_2_num_stored.
  do 32 (destruct buf as [|? buf]; [discriminate Hlen|]).
  destruct buf; [|discriminate Hlen].
  reflexivity.
Qed.

(** Each field of the table lies at its offset, as the little-endian
    digits of the converted value. *)
Lemma encode_N0_field nav itow buf k T off x :
  length buf = 32%nat ->
  fields nav itow !! k = Some (T, off, x) ->
  take (sizeof T) (drop off (encode_N0 out_of_range host nav itow buf))
  = le_bytes (sizeof T) (conv T x).
Proof.
  intros Hlen Hk. rewrite encode_N0_bytes by done.
  unfold fields in Hk.
  do 10 (destruct k as [|k]; [injection Hk as <- <- <-; reflexivity|]).
  discriminate Hk.
Qed.

Lemma encode_N0_length nav itow buf :
  length buf = 32%nat ->
  length (encode_N0 out_of_range host nav itow buf) = 32%nat.
Proof.
  intros Hlen. rewrite encode_N0_bytes by done.
  rewrite !length_app, !le_bytes_length. reflexivity.
Qed.

(** Chars that follow the 32 of the buffer are not written. *)
Lemma encode_N0_beyond nav itow buf rest :
  length buf = 32%nat ->
  encode_N0 out_of_range host nav itow (buf ++ rest)
  = encode_N0 out_of_range host nav itow buf ++ rest.
Proof.
  intros Hlen. unfold encode_N0, store.
  rewrite !le_char4_2_num_stored.
  do 32 (destruct buf as [|? buf]; [discriminate Hlen|]).
  destruct buf; [|discriminate Hlen].
  reflexivity.
Qed.

(** Every char of the buffer after the call holds a byte value. *)
Lemma encode_N0_is_byte nav itow buf :
  length buf = 32%nat ->
  Forall is_byte (encode_N0 out_of_range host nav itow buf).
Proof.
  intros Hlen. rewrite encode_N0_bytes by done.
  repeat apply Forall_app_2; try apply le_bytes_is_byte.
  repeat constructor; done.
Qed.

End Layout.

(** [ftrunc] discards the fraction: for a double [(-1)^s * m * 2^e] with
    [e < 0], the result has the sign of the double and the largest magnitude
    that does not exceed [m * 2^e]. *)
Lemma ftrunc_toward_zero x s m e z :
  Prim2SF x = S754_finite s m e -> e < 0 -> ftrunc x = Some z ->
  (if s then z <= 0 else 0 <= z)
  /\ Z.abs z * 2 ^ (- e) <= Z.pos m < (Z.abs z + 1) * 2 ^ (- e).
Proof.
  intros HSF He. unfold ftrunc. rewrite HSF.
  destruct (Z.leb_spec 0 e) as [?|_]; [lia|].
  assert (0 < 2 ^ (- e)) as Hpow by (apply Z.pow_pos_nonneg; lia).
  pose proof (Z.mul_div_le (Z.pos m) _ Hpow) as Hlo.
  pose proof (Z.mul_succ_div_gt (Z.pos m) _ Hpow) as Hhi.
  assert (0 <= Z.pos m / 2 ^ (- e)) as Hq by (apply Z.div_pos; lia).
  intros [= <-]. destruct s.
  - rewrite Z.abs_opp, Z.abs_eq by done. split; [lia|]. nia.
  - rewrite Z.abs_eq by done. split; [lia|]. nia.
Qed.

Example ftrunc_positive : ftrunc 0x1.fd70a3d70a3d7p+0%float = Some 1.
Proof. vm_compute. reflexivity. Qed.

Example ftrunc_negative : ftrunc (-0x1.fd70a3d70a3d7p+0)%float = Some (-1).
Proof. vm_compute. reflexivity. Qed.

(** On a conversion that reduces modulo [2^width], every finite value does
    wrap around. *)
Lemma float_to_int_oor_wrap T x z :
  ftrunc x = Some z -> float_to_int oor_wrap T x = wrap T z.
Proof.
  intros H. unfold float_to_int, oor_wrap. rewrite H.
  destruct (representable T z) eqn:Hr; [|done].
  symmetry. by apply wrap_representable.
Qed.

(** C2.  For every time-of-week value and every navigation state (finite or
    not), [encode_N0] fills exactly 32 chars: the buffer after the call has
    32 chars, char 0 is the literal ['N'] (78) and chars 1 to 3 are zero;
    all 32 chars are written, in that what they hold after the call is the
    same whatever the buffer held before ([buf] or [buf']) and each of them
    is a byte value; and chars that lie behind the 32 ([rest]) are left as
    they were. *)
Theorem encode_N0_marker_and_reserved out_of_range host nav itow buf buf' rest :
  length buf = 32%nat ->
  length buf' = 32%nat ->
  let packet := encode_N0 out_of_range host nav itow buf in
  length packet = 32%nat
  /\ take 4 packet = [Z.of_N (N_of_ascii "N"%char); 0; 0; 0]
  /\ Z.of_N (N_of_ascii "N"%char) = 78
  /\ encode_N0 out_of_range host nav itow buf' = packet
  /\ Forall is_byte packet
  /\ encode_N0 out_of_range host nav itow (buf ++ rest) = packet ++ rest.
Proof.
  intros Hlen Hlen' packet. subst packet. split_and!.
  - by apply encode_N0_length.
  - by rewrite encode_N0_bytes.
  - reflexivity.
  - by rewrite !encode_N0_bytes.
  - by apply encode_N0_is_byte.
  - by apply encode_N0_beyond.
Qed.

Lemma encode_N0_marker_and_reserved_witness :
  let packet := encode_N0 oor_x86_64 little_endian nav_sample double_12_345 buf_sample in
  length packet = 32%nat
  /\ take 4 packet = [Z.of_N (N_of_ascii "N"%char); 0; 0; 0]
  /\ Z.of_N (N_of_ascii "N"%char) = 78
  /\ encode_N0 oor_x86_64 little_endian nav_sample double_12_345 buf_zero = packet
  /\ Forall is_byte packet
  /\ encode_N0 oor_x86_64 little_endian nav_sample double_12_345
       (buf_sample ++ [1; 2; 3])
     = packet ++ [1; 2; 3].
Proof.
  apply (encode_N0_marker_and_reserved oor_x86_64 little_endian nav_sample
           double_12_345 buf_sample buf_zero [1; 2; 3]); reflexivity.
Defined.



(** C4, as the code has it.  The conversion discards the fraction (no
    rounding) and has no overflow check or error path: the call completes
    with the 32 chars filled, and a field whose truncated scaled value is
    representable in the field's integer type holds exactly that value, as
    its little-endian digits.  (What a field holds when the value is not
    representable is the compiled conversion's business, and need not be the
    wrapped value.) *)
Theorem encode_N0_truncates_in_range out_of_range host nav itow buf k T off x z :
  length buf = 32%nat ->
  fields nav itow !! k = Some (T, off, x) ->
  ftrunc x = Some z ->
  representable T z = true ->
  length (encode_N0 out_of_range host nav itow buf) = 32%nat
  /\ take (sizeof T) (drop off (encode_N0 out_of_range host nav itow buf))
     = le_bytes (sizeof T) z
  /\ le_field T off (encode_N0 out_of_range host nav itow buf) = z.
Proof.
  intros Hlen Hk Hz Hrep.
  pose proof (encode_N0_field out_of_range host nav itow buf k T off x Hlen Hk)
    as Hfield.
  assert (float_to_int out_of_range T x = z) as Hconv
    by (unfold float_to_int; by rewrite Hz, Hrep).
  rewrite Hconv in Hfield.
  split; [by apply encode_N0_length|]. split; [done|].
  rewrite (le_field_of_bytes T off _ z) by done.
  by apply wrap_representable.
Qed.

Lemma encode_N0_truncates_in_range_witness :
  length (encode_N0 oor_x86_64 little_endian nav_fraction double_12_345 buf_sample)
  = 32%nat
  /\ take 2 (drop 24 (encode_N0 oor_x86_64 little_endian nav_fraction
                        double_12_345 buf_sample))
     = le_bytes 2 (-199)
  /\ le_field v_s16_t 24 (encode_N0 oor_x86_64 little_endian nav_fraction
                            double_12_345 buf_sample) = -199.
Proof.
  apply (encode_N0_truncates_in_range oor_x86_64 little_endian nav_fraction
           double_12_345 buf_sample 6%nat v_s16_t 24%nat
           (v_down nav_fraction * 1e2)%float (-199)).
  - reflexivity.
  - reflexivity.
  - vm_compute. reflexivity.
  - vm_compute. reflexivity.
Defined.

(** C4 as stated fails: 300 km of height scale to 3e9, beyond a 32-bit int.
    The code compiled for x86-64 stores -2147483648 in the height field, not
    the wrapped value -1294967296. *)
Lemma height_field_does_not_wrap : ~ height_wraps oor_x86_64 little_endian.
Proof.
  intros H.
  assert (ftrunc (height nav_high * 1e4)%float = Some 3000000000) as Hz
    by (vm_compute; reflexivity).
  specialize (H nav_high 0%float buf_sample 3000000000 eq_refl Hz).
  vm_compute in H. discriminate H.
Qed.

Example height_field_x86_64 :
  le_field v_s32_t 16
    (encode_N0 oor_x86_64 little_endian nav_high 0%float buf_sample)
  = -2147483648
  /\ wrap v_s32_t 3000000000 = -1294967296.
Proof. split; vm_compute; reflexivity. Qed.

(** C8.  The buffer [encode_N0] leaves is a function of the time of week and
    of the nine values it reads (latitude, longitude, height, the three
    velocities, heading, pitch, roll): two calls that agree on them leave the
    same 32 chars, whatever the buffers held before and whatever the other
    accessors return.  The buffer is all the call writes: the embedding of
    the body has no stream and no state besides [buf], and the view is only
    read. *)
Theorem encode_N0_deterministic out_of_range host nav nav' itow buf buf' :
  length buf = 32%nat ->
  length buf' = 32%nat ->
  latitude nav = latitude nav' ->
  longitude nav = longitude nav' ->
  height nav = height nav' ->
  v_north nav = v_north nav' ->
  v_east nav = v_east nav' ->
  v_down nav = v_down nav' ->
  heading nav = heading nav' ->
  euler_theta nav = euler_theta nav' ->
  euler_phi nav = euler_phi nav' ->
  encode_N0 out_of_range host nav itow buf
  = encode_N0 out_of_range host nav' itow buf'.
Proof.
  intros Hlen Hlen' Hlat Hlng Hh Hvn Hve Hvd Hpsi Htheta Hphi.
  rewrite !encode_N0_bytes by done.
  by rewrite Hlat, Hlng, Hh, Hvn, Hve, Hvd, Hpsi, Htheta, Hphi.
Qed.

Lemma encode_N0_deterministic_witness :
  encode_N0 oor_x86_64 little_endian nav_sample double_12_345 buf_sample
  = encode_N0 oor_x86_64 little_endian nav_sample' double_12_345 buf_zero.
Proof.
  apply (encode_N0_deterministic oor_x86_64 little_endian nav_sample
           nav_sample' double_12_345 buf_sample buf_zero); reflexivity.
Defined.

End EncoderFacts.

(** ** Specifier resolution *)

Module ResolverFacts.
Import Resolver.

(** *** Strings *)

Lemma strstr_at_start hay needle :
  strstr hay needle = Some 0%nat <-> starts_with needle hay = true.
Proof.
  destruct hay as [|c hay]; simpl.
  - destruct (starts_with needle []); split; congruence.
  - destruct (starts_with needle (c :: hay)); [done|].
    destruct (strstr hay needle); split; congruence.
Qed.

Lemma strchr_lt s c i : strchr s c = Some i -> (i < length s)%nat.
Proof.
  revert i; induction s as [|d s IH]; intros i; simpl; [done|].
  destruct (Ascii.eqb d c).
  - intros [= <-]. lia.
  - destruct (strchr s c) as [j|]; [|done].
    intros [= <-]. specialize (IH j eq_refl). lia.
Qed.

Lemma strchr_take s c i : strchr s c = Some i -> strchr (take i s) c = None.
Proof.
  revert i; induction s as [|d s IH]; intros i; simpl; [done|].
  destruct (Ascii.eqb d c) eqn:Hd.
  - by intros [= <-].
  - destruct (strchr s c) as [j|]; [|done].
    intros [= <-]. simpl. by rewrite Hd, (IH j eq_refl).
Qed.

Lemma starts_with_take P s c i :
  starts_with P s = true -> strchr P c = None -> strchr s c = Some i ->
  starts_with P (take i s) = true.
Proof.
  revert s i; induction P as [|p P IH]; intros s i; [done|].
  destruct s as [|d s]; simpl; [done|].
  intros Hps HP Hs. apply andb_prop in Hps as [Hpd Hps].
  apply Ascii.eqb_eq in Hpd as <-.
  destruct (Ascii.eqb p c); [done|].
  destruct (strchr P c); [done|].
  destruct (strchr s c) as [j|] eqn:Hj; [|done].
  injection Hs as <-. simpl.
  rewrite Ascii.eqb_refl. simpl. by apply IH.
Qed.

Lemma COMPORT_PREFIX_no_colon sys : strchr (COMPORT_PREFIX sys) ":"%char = None.
Proof. unfold COMPORT_PREFIX. by destruct (defined_WIN32 sys). Qed.

Lemma device_name_serial sys s :
  starts_with (COMPORT_PREFIX sys) s = true ->
  starts_with (COMPORT_PREFIX sys) (device_name s) = true
  /\ strchr (device_name s) ":"%char = None.
Proof.
  intros Hs. unfold device_name.
  destruct (strchr s ":"%char) as [i|] eqn:Hi; [|done].
  split; [|by apply strchr_take].
  eapply starts_with_take; eauto using COMPORT_PREFIX_no_colon.
Qed.

Lemma serial_is_not_dash sys s :
  starts_with (COMPORT_PREFIX sys) s = true ->
  (strcmp s (lit "-") =? 0) = false.
Proof.
  unfold COMPORT_PREFIX, lit.
  destruct (defined_WIN32 sys); destruct s as [|c s];
    cbn [list_ascii_of_string starts_with]; try done;
    intros H; apply andb_prop in H as [Hc _];
    apply Ascii.eqb_eq in Hc as <-; reflexivity.
Qed.

(** *** Strings in memory *)

Lemma until_NUL_length l s : until_NUL l = Some s -> (length s < length l)%nat.
Proof.
  revert s; induction l as [|c l IH]; intros s; simpl; [done|].
  destruct (Ascii.eqb c NUL).
  - intros [= <-]. simpl. lia.
  - destruct (until_NUL l) as [s'|]; [|done].
    intros [= <-]. specialize (IH s' eq_refl). simpl. lia.
Qed.

Lemma until_NUL_cut l s i :
  until_NUL l = Some s -> (i < length s)%nat ->
  until_NUL (<[i := NUL]> l) = Some (take i s).
Proof.
  revert s i; induction l as [|c l IH]; intros s i; simpl; [done|].
  destruct (Ascii.eqb c NUL) eqn:Hc.
  - intros [= <-]. simpl. lia.
  - destruct (until_NUL l) as [s'|] eqn:Hl; [|done].
    intros [= <-] Hi. destruct i as [|i]; simpl.
    + reflexivity.
    + rewrite Hc, (IH s' i eq_refl); [done|]. simpl in Hi. lia.
Qed.

Lemma until_NUL_drop l s j :
  until_NUL l = Some s -> (j <= length s)%nat ->
  until_NUL (drop j l) = Some (drop j s).
Proof.
  revert s j; induction l as [|c l IH]; intros s j; simpl; [done|].
  destruct (Ascii.eqb c NUL) eqn:Hc.
  - intros [= <-] Hj. simpl in Hj. assert (j = 0%nat) as -> by lia.
    simpl. by rewrite Hc.
  - destruct (until_NUL l) as [s'|] eqn:Hl; [|done].
    intros [= <-] Hj. destruct j as [|j]; simpl.
    + by rewrite Hc, Hl.
    + apply IH; [done|]. simpl in Hj. lia.
Qed.

Lemma c_str_block m spec s :
  c_str m spec = Some s ->
  exists cs, m !! spec.1 = Some cs /\ until_NUL (drop spec.2 cs) = Some s
             /\ (spec.2 + length s < length cs)%nat.
Proof.
  unfold c_str. destruct (m !! spec.1) as [cs|]; [|done].
  intros H. exists cs. split_and!; [done..|].
  apply until_NUL_length in H. rewrite length_drop in H. lia.
Qed.

Lemma c_str_cut m spec s i :
  c_str m spec = Some s -> (i < length s)%nat ->
  c_str (cut_memory m spec i) spec = Some (take i s).
Proof.
  intros Hs Hi. destruct (c_str_block _ _ _ Hs) as (cs & Hcs & Hu & Hlen).
  unfold cut_memory, c_str. rewrite Hcs, lookup_insert_eq.
  rewrite drop_insert_ge by lia.
  replace (spec.2 + i - spec.2)%nat with i by lia.
  by apply until_NUL_cut.
Qed.

Lemma c_str_after_cut m spec s i :
  c_str m spec = Some s -> (i < length s)%nat ->
  c_str (cut_memory m spec i) (spec.1, S (spec.2 + i)) = Some (drop (S i) s).
Proof.
  intros Hs Hi. destruct (c_str_block _ _ _ Hs) as (cs & Hcs & Hu & Hlen).
  unfold cut_memory, c_str. cbn [fst snd]. rewrite Hcs, lookup_insert_eq.
  rewrite drop_insert_lt by lia.
  replace (S (spec.2 + i)) with (spec.2 + S i)%nat by lia.
  rewrite <- drop_drop. apply until_NUL_drop; [done|lia].
Qed.

Lemma c_str_after_comport m spec s :
  c_str m spec = Some s ->
  c_str (memory_after_comport m spec s) spec = Some (device_name s).
Proof.
  intros Hs. unfold memory_after_comport, device_name.
  destruct (strchr s ":"%char) as [i|] eqn:Hi; [|done].
  apply c_str_cut; [done|]. by eapply strchr_lt.
Qed.

Lemma poke_cut w spec s i :
  c_str (mem w) spec = Some s -> (i < length s)%nat ->
  poke (spec.1, (spec.2 + i)%nat) NUL w
  = Returns tt (World (cut_memory (mem w) spec i) (iostream_pool w)
                      (streams w) (cerr w) (stdin_binary w) (stdout_binary w)).
Proof.
  intros Hs Hi. destruct (c_str_block _ _ _ Hs) as (cs & Hcs & Hu & Hlen).
  unfold poke, cut_memory. cbn [fst snd]. rewrite Hcs.
  rewrite decide_True by lia. reflexivity.
Qed.

Lemma strchr_lookup s c i : strchr s c = Some i -> s !! i = Some c.
Proof.
  revert i; induction s as [|d s IH]; intros i; simpl; [done|].
  destruct (Ascii.eqb_spec d c) as [->|_].
  - by intros [= <-].
  - destruct (strchr s c) as [j|]; [|done].
    intros [= <-]. by apply IH.
Qed.

Lemma code_inj c d : code c = code d -> c = d.
Proof.
  unfold code. intros H. apply N2Z.inj in H.
  rewrite <- (ascii_N_embedding c), <- (ascii_N_embedding d). by rewrite H.
Qed.

Lemma until_NUL_no_NUL l s : until_NUL l = Some s -> Forall (fun c => c <> NUL) s.
Proof.
  revert s; induction l as [|c l IH]; intros s; simpl; [done|].
  destruct (Ascii.eqb_spec c NUL) as [->|Hc].
  - intros [= <-]. constructor.
  - destruct (until_NUL l) as [s'|]; [|done].
    intros [= <-]. constructor; [done|]. by apply IH.
Qed.

Lemma strcmp_dash s :
  Forall (fun c => c <> NUL) s -> strcmp s (lit "-") = 0 -> s = lit "-".
Proof.
  unfold lit. cbn [list_ascii_of_string].
  intros Hs. destruct s as [|c s]; cbn [strcmp]; [done|].
  destruct (Ascii.eqb_spec c "-"%char) as [->|Hc].
  - destruct s as [|d s]; [done|]. cbn [strcmp]. intros Hd.
    apply Forall_cons in Hs as [_ Hs]. apply Forall_cons in Hs as [Hd' _].
    destruct Hd'. by apply code_inj.
  - intros H. destruct Hc. apply code_inj. lia.
Qed.

(** *** The three routes of a resolution *)

Ltac proj :=
  cbn [mem iostream_pool streams cerr stdin_binary stdout_binary].

Ltac run :=
  unfold set_baudrate, endl;
  unfold bind, put_cerr, pool_find, load, new_stream,
    pool_assign, setmode_stdin, setmode_stdout, ret, exit;
  proj.

Lemma comport_branch_pooled sys w spec s k :
  c_str (mem w) spec = Some s ->
  iostream_pool w !! spec = Some k ->
  comport_branch sys spec s w
  = Returns (stream_at k)
      (World (memory_after_comport (mem w) spec s) (iostream_pool w)
             (streams w) ((cerr w ++ s) ++ [newline])
             (stdin_binary w) (stdout_binary w)).
Proof.
  intros Hs Hk. unfold comport_branch, memory_after_comport. run.
  destruct (strchr s ":"%char) as [i|] eqn:Hi.
  - erewrite poke_cut by (proj; eauto using strchr_lt). proj.
    by rewrite Hk.
  - proj. by rewrite Hk.
Qed.

Lemma comport_branch_new sys w spec s :
  c_str (mem w) spec = Some s ->
  iostream_pool w !! spec = None ->
  strchr s ":"%char = None ->
  comport_branch sys spec s w
  = Returns (stream_at (length (streams w)))
      (World (mem w) (<[spec := length (streams w)]> (iostream_pool w))
             (streams w ++ [ComportStream s None]) ((cerr w ++ s) ++ [newline])
             (stdin_binary w) (stdout_binary w)).
Proof.
  intros Hs Hk Hi. unfold comport_branch. run.
  rewrite Hi. proj. rewrite Hk. proj. by rewrite Hs.
Qed.

Lemma comport_branch_new_baudrate sys w spec s i :
  c_str (mem w) spec = Some s ->
  iostream_pool w !! spec = None ->
  strchr s ":"%char = Some i ->
  let com := length (streams w) in
  let baudrate := atoi (atoi_overflow sys) (drop (S i) s) in
  let r := com_set_baudrate sys (take i s) baudrate in
  comport_branch sys spec s w
  = if baudrate =? r then
      Returns (stream_at com)
        (World (cut_memory (mem w) spec i) (<[spec := com]> (iostream_pool w))
               (streams w ++ [ComportStream (take i s) (Some r)])
               ((cerr w ++ s) ++ [newline])
               (stdin_binary w) (stdout_binary w))
    else
      Exits (-1)
        (World (cut_memory (mem w) spec i) (iostream_pool w)
               (streams w ++ [ComportStream (take i s) (Some r)])
               ((((cerr w ++ s) ++ [newline])
                 ++ lit " => Unsupported baudrate!!") ++ [newline])
               (stdin_binary w) (stdout_binary w)).
Proof.
  intros Hs Hk Hi com baudrate r. pose proof (strchr_lt _ _ _ Hi) as Hlt.
  unfold comport_branch. run. rewrite Hi.
  erewrite poke_cut by (proj; eauto). proj.
  rewrite Hk. proj. rewrite (c_str_cut _ _ _ _ Hs Hlt). proj.
  rewrite (c_str_after_cut _ _ _ _ Hs Hlt). proj.
  unfold buffer_set_baudrate. proj.
  rewrite list_lookup_middle by done.
  rewrite insert_app_r_alt by done.
  rewrite Nat.sub_diag. cbn [insert list_insert].
  fold baudrate. fold r. fold com.
  by destruct (baudrate =? r).
Qed.

Lemma resolve_comport sys dir w spec s :
  c_str (mem w) spec = Some s ->
  starts_with (COMPORT_PREFIX sys) s = true ->
  resolve sys dir spec false w = comport_branch sys spec s w.
Proof.
  intros Hs HP.
  destruct dir; unfold resolve, spec2istream, spec2ostream;
    unfold bind at 1, load; rewrite Hs; cbn [negb andb];
    rewrite (serial_is_not_dash sys s HP);
    by rewrite bool_decide_true by (by apply strstr_at_start).
Qed.

Lemma file_route_tests sys force_fstream m spec s :
  c_str m spec = Some s ->
  file_route sys force_fstream s ->
  negb force_fstream && (strcmp s (lit "-") =? 0) = false
  /\ negb force_fstream
     && bool_decide (strstr s (COMPORT_PREFIX sys) = Some 0%nat) = false.
Proof.
  intros Hs [->|[Hdash HP]]; [done|].
  split; apply andb_false_intro2.
  - apply Z.eqb_neq. intros H0. apply Hdash, strcmp_dash; [|done].
    unfold c_str in Hs. destruct (m !! spec.1); [|done].
    by eapply until_NUL_no_NUL.
  - apply bool_decide_eq_false. rewrite strstr_at_start. by rewrite HP.
Qed.

Lemma spec2istream_file sys w spec force_fstream s :
  c_str (mem w) spec = Some s ->
  file_route sys force_fstream s ->
  let fin := length (streams w) in
  spec2istream sys spec force_fstream w
  = if file_opens sys s ios_in then
      Returns (stream_at fin)
        (World (mem w) (<[spec := fin]> (iostream_pool w))
               (streams w ++ [fstream s ios_in false])
               ((cerr w ++ s) ++ [newline])
               (stdin_binary w) (stdout_binary w))
    else
      Exits (-1)
        (World (mem w) (iostream_pool w)
               (streams w ++ [fstream s ios_in true])
               (((cerr w ++ s) ++ lit " => File not found!!") ++ [newline])
               (stdin_binary w) (stdout_binary w)).
Proof.
  intros Hs Hroute fin.
  destruct (file_route_tests _ _ _ _ _ Hs Hroute) as [Hdash HP].
  unfold spec2istream. unfold bind at 1, load. rewrite Hs, Hdash, HP.
  run. by destruct (file_opens sys s ios_in).
Qed.

Lemma spec2ostream_file sys w spec force_fstream s :
  c_str (mem w) spec = Some s ->
  file_route sys force_fstream s ->
  let fout := length (streams w) in
  spec2ostream sys spec force_fstream w
  = Returns (stream_at fout)
      (World (mem w) (<[spec := fout]> (iostream_pool w))
             (streams w ++ [fstream s ios_out (negb (file_opens sys s ios_out))])
             ((cerr w ++ s) ++ [newline])
             (stdin_binary w) (stdout_binary w)).
Proof.
  intros Hs Hroute fout.
  destruct (file_route_tests _ _ _ _ _ Hs Hroute) as [Hdash HP].
  unfold spec2ostream. unfold bind at 1, load. rewrite Hs, Hdash, HP.
  by run.
Qed.

(** After a COM-port resolution has returned, the specifier is a key of the
    pool, mapped to the stream returned, and still reads as a COM port. *)
Lemma comport_returned sys dir w spec s r w1 :
  c_str (mem w) spec = Some s ->
  starts_with (COMPORT_PREFIX sys) s = true ->
  resolve sys dir spec false w = Returns r w1 ->
  exists k, r = stream_at k
    /\ iostream_pool w1 !! spec = Some k
    /\ c_str (mem w1) spec = Some (device_name s).
Proof.
  intros Hs HP. rewrite (resolve_comport _ _ _ _ _ Hs HP).
  destruct (iostream_pool w !! spec) as [k|] eqn:Hk.
  - rewrite (comport_branch_pooled _ _ _ _ _ Hs Hk).
    intros [= <- <-]. exists k. proj. split_and!; [done..|].
    by apply c_str_after_comport.
  - destruct (strchr s ":"%char) as [i|] eqn:Hi.
    + rewrite (comport_branch_new_baudrate _ _ _ _ _ Hs Hk Hi).
      destruct (_ =? _); [|done].
      intros [= <- <-]. eexists. proj. split_and!; [done|..].
      * by rewrite lookup_insert_eq.
      * unfold device_name. rewrite Hi. apply c_str_cut; [done|].
        by eapply strchr_lt.
    + rewrite (comport_branch_new _ _ _ _ Hs Hk Hi).
      intros [= <- <-]. eexists. proj. split_and!; [done|..].
      * by rewrite lookup_insert_eq.
      * unfold device_name. by rewrite Hi.
Qed.

(** *** [atoi] *)

(** [atoi] returns an [int], whatever the C library. *)
Lemma atoi_is_int overflow s :
  Numeric.representable Numeric.v_s32_t (atoi overflow s) = true.
Proof.
  unfold atoi.
  destruct (Numeric.representable Numeric.v_s32_t (decimal_value s)) eqn:H;
    [done|].
  apply EndianFacts.wrap_in_range.
Qed.

(** It is the number of the text when an [int] holds that number. *)
Lemma atoi_in_range overflow s :
  Numeric.representable Numeric.v_s32_t (decimal_value s) = true ->
  atoi overflow s = decimal_value s.
Proof. intros H. unfold atoi. by rewrite H. Qed.

Example atoi_9600 : atoi strtol_saturated (lit " +9600 baud") = 9600.
Proof. vm_compute. reflexivity. Qed.

(** With glibc, texts beyond [int] come back reduced modulo 2^32, and texts
    beyond [long] as -1 or 0. *)
Example atoi_beyond_int :
  atoi strtol_saturated (lit "4294976896") = 9600
  /\ atoi strtol_saturated (lit "99999999999") = 1215752191
  /\ atoi strtol_saturated (lit "9223372036854775808") = -1
  /\ atoi strtol_saturated (lit "-9223372036854775809") = 0.
Proof. vm_compute. done. Qed.

(** So a device that runs at 9600 baud takes the rate "4294976896". *)
Example comport_baudrate_beyond_int :
  returned (resolve posix_9600 input (0, 0)%nat false
              (fresh ["/dev/ttyUSB0:4294976896"%string]))
  = Some (stream_at 0).
Proof. vm_compute. reflexivity. Qed.

(** *** The claims about resolution *)

(** C1, as the code has it.  Pool reuse holds on the COM-port route: once a
    resolution of a COM-port specifier has returned, resolving the same
    specifier again (same pointer, either direction) returns the very stream
    the pool holds for it, creates no stream and leaves the pool as it is.
    (The file route never consults the pool.) *)
Theorem comport_resolution_reuses_pool sys w spec s d1 d2 r w1 :
  c_str (mem w) spec = Some s ->
  starts_with (COMPORT_PREFIX sys) s = true ->
  resolve sys d1 spec false w = Returns r w1 ->
  exists k w2,
    r = stream_at k
    /\ iostream_pool w1 !! spec = Some k
    /\ resolve sys d2 spec false w1 = Returns r w2
    /\ streams w2 = streams w1
    /\ iostream_pool w2 = iostream_pool w1.
Proof.
  intros Hs HP Hfirst.
  destruct (comport_returned _ _ _ _ _ _ _ Hs HP Hfirst) as (k & -> & Hk & Hs1).
  destruct (device_name_serial sys s HP) as [HP1 _].
  exists k. eexists. split_and!; [done..| | |].
  - rewrite (resolve_comport _ _ _ _ _ Hs1 HP1).
    apply (comport_branch_pooled _ _ _ _ _ Hs1 Hk).
  - done.
  - done.
Qed.

Lemma comport_resolution_reuses_pool_witness :
  let w := fresh ["/dev/ttyUSB0:9600"%string] in
  let w1 := world_after (resolve posix_9600 input (0, 0)%nat false w) in
  exists k w2,
    stream_at 0 = stream_at k
    /\ iostream_pool w1 !! (0, 0)%nat = Some k
    /\ resolve posix_9600 output (0, 0)%nat false w1 = Returns (stream_at 0) w2
    /\ streams w2 = streams w1
    /\ iostream_pool w2 = iostream_pool w1.
Proof.
  apply (comport_resolution_reuses_pool posix_9600
           (fresh ["/dev/ttyUSB0:9600"%string]) (0, 0)%nat
           (lit "/dev/ttyUSB0:9600") input output (stream_at 0)).
  - vm_compute. reflexivity.
  - vm_compute. reflexivity.
  - vm_compute. reflexivity.
Defined.

(** C1 as stated fails on the file route: resolving the file specifier
    "nav.log" for output twice creates a second stream and returns it. *)
Lemma file_resolution_opens_again : ~ every_specifier_reuses_pool posix_9600.
Proof.
  intros H.
  destruct (H (fresh ["nav.log"%string]) (0, 0)%nat false output (stream_at 0)
              (world_after (resolve posix_9600 output (0, 0)%nat false
                              (fresh ["nav.log"%string]))))
    as (w2 & H2 & _); [vm_compute; reflexivity|].
  vm_compute in H2. discriminate H2.
Qed.

(** C5, as the code has it.  When a COM-port specifier that is not yet a key
    of the pool carries a baud rate the device does not take, resolution
    writes " => Unsupported baudrate!!" to the error stream and exits with
    status -1: no stream is returned and nothing enters the pool.  The rate
    requested is the [int] that [atoi] makes of the text after the [':'];
    the device does not take it when [set_baudrate] answers with another
    one.  (For a specifier already in the pool the suffix is not looked
    at.) *)
Theorem unsupported_baudrate_is_fatal sys dir w spec s i :
  c_str (mem w) spec = Some s ->
  starts_with (COMPORT_PREFIX sys) s = true ->
  strchr s ":"%char = Some i ->
  iostream_pool w !! spec = None ->
  com_set_baudrate sys (take i s) (atoi (atoi_overflow sys) (drop (S i) s))
    <> atoi (atoi_overflow sys) (drop (S i) s) ->
  exists w',
    resolve sys dir spec false w = Exits (-1) w'
    /\ cerr w' = (((cerr w ++ s) ++ [newline])
                  ++ lit " => Unsupported baudrate!!") ++ [newline]
    /\ iostream_pool w' = iostream_pool w
    /\ returned (resolve sys dir spec false w) = None.
Proof.
  intros Hs HP Hi Hk Hrate.
  rewrite (resolve_comport _ _ _ _ _ Hs HP).
  rewrite (comport_branch_new_baudrate _ _ _ _ _ Hs Hk Hi).
  destruct (Z.eqb_spec (atoi (atoi_overflow sys) (drop (S i) s))
              (com_set_baudrate sys (take i s)
                 (atoi (atoi_overflow sys) (drop (S i) s))))
    as [Heq|_]; [by destruct Hrate|].
  eexists. split_and!; done.
Qed.

Lemma unsupported_baudrate_is_fatal_witness :
  let w := fresh ["/dev/ttyUSB0:1200"%string] in
  exists w',
    resolve posix_9600 input (0, 0)%nat false w = Exits (-1) w'
    /\ cerr w' = (((cerr w ++ lit "/dev/ttyUSB0:1200") ++ [newline])
                  ++ lit " => Unsupported baudrate!!") ++ [newline]
    /\ iostream_pool w' = iostream_pool w
    /\ returned (resolve posix_9600 input (0, 0)%nat false w) = None.
Proof.
  apply (unsupported_baudrate_is_fatal posix_9600 input
           (fresh ["/dev/ttyUSB0:1200"%string]) (0, 0)%nat
           (lit "/dev/ttyUSB0:1200") 12%nat).
  - vm_compute. reflexivity.
  - vm_compute. reflexivity.
  - vm_compute. reflexivity.
  - vm_compute. reflexivity.
  - vm_compute. discriminate.
Defined.

(** C5 as stated fails for a specifier already in the pool: the process has
    resolved "/dev/ttyUSB0:9600", the caller stores "/dev/ttyUSB0:1200" in
    the same buffer, and the device runs at 9600 only; resolving the buffer
    again returns the pooled stream. *)
Lemma pooled_comport_ignores_baudrate :
  ~ unsupported_baudrate_never_returns posix_9600.
Proof.
  intros H.
  specialize (H (caller_writes 0 "/dev/ttyUSB0:1200"
                   (world_after (resolve posix_9600 input (0, 0)%nat false
                                   (fresh ["/dev/ttyUSB0:9600"%string]))))
                (0, 0)%nat input (lit "/dev/ttyUSB0:1200") 12%nat).
  vm_compute in H.
  assert (Some (stream_at 0) = None) as Habs; [|discriminate Habs].
  apply H; [reflexivity..|discriminate].
Qed.

(** C6.  On the file route, input and output resolution treat a file that
    cannot be opened differently.  Input: when the file cannot be opened for
    reading, the resolution writes " => File not found!!" and exits with
    status -1, and nothing enters the pool; when it can, the resolution
    returns the new stream.  Output: whatever the file system answers, for
    reading or for writing, the resolution does not exit and writes no such
    message: it puts the new stream in the pool under the specifier and
    returns it, with the stream's fail bit set when the file did not
    open. *)
Theorem file_open_failure sys w spec force_fstream s :
  c_str (mem w) spec = Some s ->
  file_route sys force_fstream s ->
  let n := length (streams w) in
  (file_opens sys s ios_in = false ->
   exists w',
     spec2istream sys spec force_fstream w = Exits (-1) w'
     /\ cerr w' = ((cerr w ++ s) ++ lit " => File not found!!") ++ [newline]
     /\ iostream_pool w' = iostream_pool w)
  /\ (file_opens sys s ios_in = true ->
      exists w',
        spec2istream sys spec force_fstream w = Returns (stream_at n) w'
        /\ iostream_pool w' = <[spec := n]> (iostream_pool w)
        /\ streams w' = streams w ++ [fstream s ios_in false])
  /\ (exists w',
        spec2ostream sys spec force_fstream w = Returns (stream_at n) w'
        /\ cerr w' = (cerr w ++ s) ++ [newline]
        /\ iostream_pool w' = <[spec := n]> (iostream_pool w)
        /\ streams w'
           = streams w ++ [fstream s ios_out (negb (file_opens sys s ios_out))])
  /\ (forall status w',
        spec2ostream sys spec force_fstream w <> Exits status w').
Proof.
  intros Hs Hroute n. split_and!.
  - intros Hfail. rewrite (spec2istream_file _ _ _ _ _ Hs Hroute), Hfail.
    eexists. split_and!; done.
  - intros Hopen. rewrite (spec2istream_file _ _ _ _ _ Hs Hroute), Hopen.
    eexists. split_and!; done.
  - rewrite (spec2ostream_file _ _ _ _ _ Hs Hroute).
    eexists. split_and!; done.
  - intros status w'. by rewrite (spec2ostream_file _ _ _ _ _ Hs Hroute).
Qed.

Lemma file_open_failure_witness :
  let w := fresh ["missing.bin"%string] in
  (exists w',
     spec2istream posix_9600 (0, 0)%nat false w = Exits (-1) w'
     /\ cerr w' = ((cerr w ++ lit "missing.bin") ++ lit " => File not found!!")
                  ++ [newline]
     /\ iostream_pool w' = iostream_pool w)
  /\ (exists w',
        spec2ostream posix_9600 (0, 0)%nat false w = Returns (stream_at 0) w'
        /\ cerr w' = (cerr w ++ lit "missing.bin") ++ [newline]
        /\ iostream_pool w' = <[(0, 0)%nat := 0%nat]> (iostream_pool w)
        /\ streams w'
           = streams w ++ [fstream (lit "missing.bin") ios_out true]).
Proof.
  destruct (file_open_failure posix_9600 (fresh ["missing.bin"%string])
              (0, 0)%nat false (lit "missing.bin"))
    as (Hin & _ & Hout & _).
  - vm_compute. reflexivity.
  - right. split; [discriminate|vm_compute; reflexivity].
  - split; [apply Hin; vm_compute; reflexivity|exact Hout].
Defined.

(** C7.  Whatever the pool holds, resolving "-" without [force_fstream]
    returns [std::cin] (input) or [std::cout] (output) and leaves the pool,
    the streams of the process and the memory as they were: no entry is made
    for "-". *)
Theorem standard_streams_bypass_pool sys w spec :
  c_str (mem w) spec = Some (lit "-") ->
  (exists w',
     spec2istream sys spec false w = Returns std_cin w'
     /\ iostream_pool w' = iostream_pool w
     /\ streams w' = streams w
     /\ mem w' = mem w)
  /\ (exists w',
        spec2ostream sys spec false w = Returns std_cout w'
        /\ iostream_pool w' = iostream_pool w
        /\ streams w' = streams w
        /\ mem w' = mem w).
Proof.
  intros Hs. split.
  - unfold spec2istream. unfold bind at 1, load. rewrite Hs.
    change (negb false && (strcmp (lit "-") (lit "-") =? 0)) with true.
    run. eexists. split_and!; done.
  - unfold spec2ostream. unfold bind at 1, load. rewrite Hs.
    change (negb false && (strcmp (lit "-") (lit "-") =? 0)) with true.
    run. eexists. split_and!; done.
Qed.

Lemma standard_streams_bypass_pool_witness :
  let w := world_after (spec2ostream win32_any (0, 0)%nat false
                          (fresh ["nav.log"%string; "-"%string])) in
  (exists w',
     spec2istream win32_any (1, 0)%nat false w = Returns std_cin w'
     /\ iostream_pool w' = iostream_pool w
     /\ streams w' = streams w
     /\ mem w' = mem w)
  /\ (exists w',
        spec2ostream win32_any (1, 0)%nat false w = Returns std_cout w'
        /\ iostream_pool w' = iostream_pool w
        /\ streams w' = streams w
        /\ mem w' = mem w).
Proof.
  apply (standard_streams_bypass_pool win32_any
           (world_after (spec2ostream win32_any (0, 0)%nat false
                           (fresh ["nav.log"%string; "-"%string])))
           (1, 0)%nat).
  vm_compute. reflexivity.
Defined.

(** C9.  A COM-port specifier with a [':'] is cut in the caller's memory: in
    either direction, and whether the call returns or exits, the char at the
    first [':'] has been overwritten with the terminator, so that the
    caller's string now reads as the bare device name. *)
Theorem comport_specifier_cut_in_place sys dir w spec s i :
  c_str (mem w) spec = Some s ->
  starts_with (COMPORT_PREFIX sys) s = true ->
  strchr s ":"%char = Some i ->
  s !! i = Some ":"%char
  /\ exists w' cs,
       final_world (resolve sys dir spec false w) = Some w'
       /\ mem w !! spec.1 = Some cs
       /\ mem w' = <[spec.1 := <[(spec.2 + i)%nat := NUL]> cs]> (mem w)
       /\ c_str (mem w') spec = Some (take i s).
Proof.
  intros Hs HP Hi. split; [by apply strchr_lookup|].
  pose proof (strchr_lt _ _ _ Hi) as Hlt.
  pose proof (c_str_cut _ _ _ _ Hs Hlt) as Hcut.
  destruct (c_str_block _ _ _ Hs) as (cs & Hcs & _ & _).
  assert (cut_memory (mem w) spec i
          = <[spec.1 := <[(spec.2 + i)%nat := NUL]> cs]> (mem w)) as Hmem
    by (unfold cut_memory; by rewrite Hcs).
  rewrite (resolve_comport _ _ _ _ _ Hs HP).
  destruct (iostream_pool w !! spec) as [k|] eqn:Hk.
  - rewrite (comport_branch_pooled _ _ _ _ _ Hs Hk).
    unfold memory_after_comport. rewrite Hi.
    eexists _, cs. cbn [final_world mem]. by rewrite <- Hmem.
  - rewrite (comport_branch_new_baudrate _ _ _ _ _ Hs Hk Hi).
    destruct (_ =? _); eexists _, cs; cbn [final_world mem];
      by rewrite <- Hmem.
Qed.

Lemma comport_specifier_cut_in_place_witness :
  let w := fresh ["COM3:115200"%string] in
  lit "COM3:115200" !! 4%nat = Some ":"%char
  /\ exists w' cs,
       final_world (resolve win32_any output (0, 0)%nat false w) = Some w'
       /\ mem w !! 0%nat = Some cs
       /\ mem w' = <[0%nat := <[(0 + 4)%nat := NUL]> cs]> (mem w)
       /\ c_str (mem w') (0, 0)%nat = Some (take 4 (lit "COM3:115200")).
Proof.
  apply (comport_specifier_cut_in_place win32_any output
           (fresh ["COM3:115200"%string]) (0, 0)%nat (lit "COM3:115200") 4%nat).
  - vm_compute. reflexivity.
  - vm_compute. reflexivity.
  - vm_compute. reflexivity.
Defined.

(** C10.  The pool is keyed by the specifier's pointer, not by its text: two
    specifiers that read the same but are different pointers, neither yet a
    key, are resolved to two different streams, each created by its own
    resolution and each under its own key; and resolving the first pointer
    once more finds the stream stored under that pointer. *)
Theorem pool_is_keyed_by_pointer sys w p q s d1 d2 d3 :
  p <> q ->
  c_str (mem w) p = Some s ->
  c_str (mem w) q = Some s ->
  starts_with (COMPORT_PREFIX sys) s = true ->
  strchr s ":"%char = None ->
  iostream_pool w !! p = None ->
  iostream_pool w !! q = None ->
  let n := length (streams w) in
  exists w1 w2 w3,
    resolve sys d1 p false w = Returns (stream_at n) w1
    /\ resolve sys d2 q false w1 = Returns (stream_at (S n)) w2
    /\ streams w2 = streams w ++ [ComportStream s None; ComportStream s None]
    /\ iostream_pool w2 = <[q := S n]> (<[p := n]> (iostream_pool w))
    /\ resolve sys d3 p false w2 = Returns (stream_at n) w3
    /\ streams w3 = streams w2.
Proof.
  intros Hpq Hp Hq HP Hi Hkp Hkq n.
  pose proof (comport_branch_new sys w p s Hp Hkp Hi) as H1.
  fold n in H1.
  set (w1 := World (mem w) (<[p := n]> (iostream_pool w))
                   (streams w ++ [ComportStream s None])
                   ((cerr w ++ s) ++ [newline])
                   (stdin_binary w) (stdout_binary w)) in H1.
  assert (length (streams w1) = S n) as Hn1
    by (subst w1 n; proj; rewrite length_app; cbn [length]; lia).
  assert (iostream_pool w1 !! q = None) as Hkq1
    by (subst w1; proj; by rewrite lookup_insert_ne).
  pose proof (comport_branch_new sys w1 q s Hq Hkq1 Hi) as H2.
  rewrite Hn1 in H2.
  set (w2 := World _ _ _ _ _ _) in H2.
  assert (iostream_pool w2 !! p = Some n) as Hkp2.
  { subst w2 w1. proj. rewrite lookup_insert_ne by done.
    by rewrite lookup_insert_eq. }
  pose proof (comport_branch_pooled sys w2 p s n Hp Hkp2) as H3.
  exists w1, w2. eexists. split_and!.
  - by rewrite (resolve_comport _ _ _ _ _ Hp HP).
  - by rewrite (resolve_comport sys d2 w1 q s Hq HP).
  - subst w2 w1. proj. by rewrite <- app_assoc.
  - done.
  - rewrite (resolve_comport sys d3 w2 p s Hp HP). exact H3.
  - done.
Qed.

Lemma pool_is_keyed_by_pointer_witness :
  let w := fresh ["COM3"%string; "COM3"%string] in
  let n := length (streams w) in
  exists w1 w2 w3,
    resolve win32_any input (0, 0)%nat false w = Returns (stream_at n) w1
    /\ resolve win32_any output (1, 0)%nat false w1 = Returns (stream_at (S n)) w2
    /\ streams w2
       = streams w ++ [ComportStream (lit "COM3") None;
                       ComportStream (lit "COM3") None]
    /\ iostream_pool w2
       = <[(1, 0)%nat := S n]> (<[(0, 0)%nat := n]> (iostream_pool w))
    /\ resolve win32_any input (0, 0)%nat false w2 = Returns (stream_at n) w3
    /\ streams w3 = streams w2.
Proof.
  apply (pool_is_keyed_by_pointer win32_any
           (fresh ["COM3"%string; "COM3"%string]) (0, 0)%nat (1, 0)%nat
           (lit "COM3") input output input).
  - discriminate.
  - vm_compute. reflexivity.
  - vm_compute. reflexivity.
  - vm_compute. reflexivity.
  - vm_compute. reflexivity.
  - vm_compute. reflexivity.
  - vm_compute. reflexivity.
Defined.

End ResolverFacts.

(** ** Options *)

Module OptionsFacts.
Import Numeric Resolver ResolverFacts Options.

(** *** [get_value] and [is_true] *)

Lemma strstr_start_bool hay needle :
  bool_decide (strstr hay needle = Some 0%nat) = starts_with needle hay.
Proof.
  destruct (starts_with needle hay) eqn:H.
  - apply bool_decide_eq_true. by apply strstr_at_start.
  - apply bool_decide_eq_false. rewrite strstr_at_start. by rewrite H.
Qed.

Lemma get_value_starts_with s key b :
  get_value s key b
  = if starts_with (lit "--") s then
      if starts_with key (drop 2 s) then
        if starts_with (lit "=") (drop (2 + length key) s)
        then Some (in_spec (2 + length key + 1))
        else if b then Some literal_true else None
      else None
    else None.
Proof.
  unfold get_value. rewrite !strstr_start_bool.
  destruct (starts_with (lit "--") s); [|done].
  by destruct (starts_with key (drop 2 s)).
Qed.

Lemma starts_with_app needle rest : starts_with needle (needle ++ rest) = true.
Proof.
  induction needle as [|c needle IH]; [done|].
  cbn [app starts_with]. by rewrite Ascii.eqb_refl, IH.
Qed.

Lemma starts_with_inv needle hay :
  starts_with needle hay = true -> exists rest, hay = needle ++ rest.
Proof.
  revert hay; induction needle as [|c needle IH]; intros hay; [by exists hay|].
  destruct hay as [|d hay]; cbn [starts_with]; [done|].
  intros H. apply andb_prop in H as [Hc H]. apply Ascii.eqb_eq in Hc as ->.
  destruct (IH _ H) as [rest ->]. by exists rest.
Qed.

Lemma drop_dashes key rest n :
  drop (2 + length key + n) (lit "--" ++ key ++ rest) = drop n rest.
Proof.
  change (lit "--" ++ key ++ rest) with ("-"%char :: "-"%char :: key ++ rest).
  replace (2 + length key + n)%nat with (S (S (length key + n))) by lia.
  cbn [drop]. by rewrite drop_app_add' by done.
Qed.

Lemma get_value_shape key rest b :
  get_value (lit "--" ++ key ++ rest) key b
  = if starts_with (lit "=") rest
    then Some (in_spec (2 + length key + 1))
    else if b then Some literal_true else None.
Proof.
  rewrite get_value_starts_with.
  rewrite (starts_with_app (lit "--") (key ++ rest)).
  rewrite <- (Nat.add_0_r (2 + length key)) at 1.
  rewrite (drop_dashes key rest 0), drop_0.
  change (drop 2 (lit "--" ++ key ++ rest)) with (key ++ rest).
  by rewrite starts_with_app.
Qed.

Lemma get_value_hit key value accept_no_value :
  let spec := lit "--" ++ key ++ lit "=" ++ value in
  get_value spec key accept_no_value = Some (in_spec (2 + length key + 1))
  /\ value_text spec (in_spec (2 + length key + 1)) = value.
Proof.
  intros spec. subst spec. split.
  - rewrite get_value_shape. by rewrite starts_with_app.
  - cbn [value_text]. by rewrite drop_dashes.
Qed.

(** X1.  For every key and value text, [get_value] finds the value of the
    argument [--key=value]: it returns the pointer just after the ['='], and
    the string there is the value, whatever [accept_no_value] is. *)
Theorem get_value_key_value key value accept_no_value :
  let spec := lit "--" ++ key ++ lit "=" ++ value in
  get_value spec key accept_no_value = Some (in_spec (2 + length key + 1))
  /\ value_text spec (in_spec (2 + length key + 1)) = value.
Proof. apply get_value_hit. Qed.

(** X2.  When the text after [--key] does not begin with ['='], [get_value]
    yields the literal ["true"] if [accept_no_value] is set and [NULL]
    otherwise, whatever that text is: the key only has to be a prefix of the
    option's name. *)
Theorem get_value_without_value key rest accept_no_value :
  starts_with (lit "=") rest = false ->
  get_value (lit "--" ++ key ++ rest) key accept_no_value
  = if accept_no_value then Some literal_true else None.
Proof. intros H. by rewrite get_value_shape, H. Qed.

Lemma get_value_without_value_witness :
  get_value (lit "--" ++ lit "use_udkf" ++ lit "xyz") (lit "use_udkf") true
  = (if true then Some literal_true else None).
Proof.
  apply (get_value_without_value (lit "use_udkf") (lit "xyz") true).
  reflexivity.
Defined.

(** X3.  [get_value] returns a value only for an argument of the form
    [--key...]: a pointer into the argument exactly when an ['='] follows the
    key (the value being the text after it), the literal ["true"] exactly
    when no ['='] follows and [accept_no_value] is set. *)
Theorem get_value_found spec key accept_no_value value :
  get_value spec key accept_no_value = Some value ->
  exists rest,
    spec = lit "--" ++ key ++ rest
    /\ match value with
       | in_spec offset =>
           offset = (2 + length key + 1)%nat
           /\ rest = lit "=" ++ value_text spec value
       | literal_true =>
           accept_no_value = true /\ starts_with (lit "=") rest = false
       end.
Proof.
  rewrite get_value_starts_with.
  destruct (starts_with (lit "--") spec) eqn:Hdd; [|done].
  destruct (starts_with key (drop 2 spec)) eqn:Hkey; [|done].
  apply starts_with_inv in Hdd as [tail ->].
  change (drop 2 (lit "--" ++ tail)) with tail in *.
  apply starts_with_inv in Hkey as [rest ->].
  rewrite <- (Nat.add_0_r (2 + length key)) at 1.
  rewrite (drop_dashes key rest 0), drop_0.
  destruct (starts_with (lit "=") rest) eqn:Heq.
  - intros H. injection H as H. subst value.
    exists rest. split; [done|]. split; [done|].
    unfold value_text.
    change (S (S (length key + 1))) with (2 + length key + 1)%nat.
    rewrite (drop_dashes key rest 1).
    apply starts_with_inv in Heq as [v ->]. done.
  - destruct accept_no_value; [|done]. intros H. injection H as H.
    subst value. by exists rest.
Qed.

Lemma get_value_found_witness :
  exists rest,
    lit "--out=nav.log" = lit "--" ++ lit "out" ++ rest
    /\ match in_spec 6 with
       | in_spec offset =>
           offset = (2 + length (lit "out") + 1)%nat
           /\ rest = lit "=" ++ value_text (lit "--out=nav.log") (in_spec 6)
       | literal_true =>
           false = true /\ starts_with (lit "=") rest = false
       end.
Proof.
  apply (get_value_found (lit "--out=nav.log") (lit "out") false (in_spec 6)).
  vm_compute. reflexivity.
Defined.

Lemma strcmp_eq a b :
  Forall (fun c => c <> NUL) a -> Forall (fun c => c <> NUL) b ->
  strcmp a b = 0 <-> a = b.
Proof.
  intros Ha. revert b. induction Ha as [|c a Hc Ha IH]; intros b Hb.
  - destruct Hb as [|d b Hd Hb]; cbn [strcmp]; [done|].
    split; [|done]. intros H. destruct Hd. apply code_inj.
    change (code NUL) with 0. lia.
  - destruct Hb as [|d b Hd Hb]; cbn [strcmp].
    + split; [|done]. intros H. destruct Hc. by apply code_inj.
    + destruct (Ascii.eqb_spec c d) as [->|Hcd].
      * rewrite (IH b Hb). split; [by intros ->|by intros [= ->]].
      * split; [|by intros [= ? ?]].
        intros H. destruct Hcd. apply code_inj. lia.
Qed.

(** X4.  For a value string, [is_true] holds exactly for ["on"] and ["true"],
    compared char by char: every other text (["ON"], ["1"], ["yes"], the
    empty string) counts as false. *)
Theorem is_true_iff value :
  Forall (fun c => c <> NUL) value ->
  is_true value = true <-> value = lit "on" \/ value = lit "true".
Proof.
  intros Hv. unfold is_true.
  rewrite orb_true_iff, !Z.eqb_eq.
  rewrite !strcmp_eq; [done|done|..]; try done;
    unfold lit; cbn [list_ascii_of_string]; repeat constructor; done.
Qed.

Lemma is_true_iff_witness :
  is_true (lit "on") = true <-> lit "on" = lit "on" \/ lit "on" = lit "true".
Proof.
  apply (is_true_iff (lit "on")).
  unfold lit. cbn [list_ascii_of_string].
  repeat (constructor; [discriminate|]). constructor.
Defined.

(** *** [check_spec] *)

Lemma CHECK_OPTION_skip name nv op disp s rest :
  get_value s (lit name) nv = None ->
  CHECK_OPTION name nv op disp s rest = rest.
Proof. unfold CHECK_OPTION. by intros ->. Qed.

Lemma CHECK_OPTION_hit name nv op disp s rest value w :
  get_value s (lit name) nv = Some value ->
  CHECK_OPTION name nv op disp s rest w
  = Returns (true, op (value_text s value))
      (World (mem w) (iostream_pool w) (streams w)
             ((((cerr w ++ lit name) ++ lit ": ")
               ++ disp (op (value_text s value))) ++ [newline])
             (stdin_binary w) (stdout_binary w)).
Proof. unfold CHECK_OPTION. intros ->. by run. Qed.

Lemma starts_with_prefix a b s :
  starts_with (a ++ b) s = true -> starts_with a s = true.
Proof.
  revert s; induction a as [|c a IH]; intros s; [done|].
  destruct s as [|d s]; cbn [app starts_with]; [done|].
  intros H. apply andb_prop in H as [-> H]. by rewrite (IH _ H).
Qed.

Ltac no_sscanf :=
  unfold sscanf_i_lf;
  repeat match goal with
  | |- context [starts_with (lit ?l) (lit "--" ++ ?t)] =>
      change (starts_with (lit l) (lit "--" ++ t)) with false
  end;
  cbv beta iota.

Ltac skip_out :=
  match goal with
  | |- context [get_value ?s (lit "out") false] =>
      let H := fresh in
      assert (get_value s (lit "out") false = None) as H
        by (rewrite get_value_starts_with; reflexivity);
      rewrite H; clear H; cbv beta iota
  end.

Ltac skip_option :=
  match goal with
  | |- CHECK_OPTION ?n ?nv ?op ?d ?t ?r ?v = _ =>
      rewrite (CHECK_OPTION_skip n nv op d t r)
        by (rewrite get_value_starts_with; reflexivity)
  end.

(** X5.  When [check_spec] returns false it has changed nothing: the options,
    the pool, the streams, the error stream and the memory are as before. *)
Theorem check_spec_false_changes_nothing rt sys spec o w o' w' :
  check_spec rt sys spec o w = Returns (false, o') w' ->
  o' = o /\ w' = w.
Proof.
  unfold check_spec. unfold bind at 1, load.
  destruct (c_str (mem w) spec) as [s|]; [|done].
  repeat match goal with
  | |- context [sscanf_i_lf ?a ?b ?c] =>
      destruct (sscanf_i_lf a b c) as [[? ?]|]; [run; by intros [=]|]
  | |- CHECK_OPTION ?n ?nv ?op ?d ?t ?r ?v = _ -> _ =>
      unfold CHECK_OPTION at 1;
      destruct (get_value t (lit n) nv); [run; by intros [=]|]
  end.
  destruct (get_value s (lit "out") false) as [[offset|]|].
  - run. destruct (spec2ostream _ _ _ _); by intros [=].
  - by intros [=].
  - repeat match goal with
    | |- CHECK_OPTION ?n ?nv ?op ?d ?t ?r ?v = _ -> _ =>
        unfold CHECK_OPTION at 1;
        destruct (get_value t (lit n) nv); [run; by intros [=]|]
    end.
    unfold ret. by intros [= <- <-].
Qed.

Lemma check_spec_false_changes_nothing_witness :
  GlobalOptions_init = GlobalOptions_init
  /\ fresh ["nav.log"%string] = fresh ["nav.log"%string].
Proof.
  apply (check_spec_false_changes_nothing runtime_sample posix_9600 (0, 0)%nat
           GlobalOptions_init (fresh ["nav.log"%string])
           GlobalOptions_init (fresh ["nav.log"%string])).
  vm_compute. reflexivity.
Defined.

(** X6.  An argument that does not begin with ["--"] is no option:
    [check_spec] returns false (and leaves everything as it was). *)
Theorem check_spec_not_an_option rt sys spec o w s :
  c_str (mem w) spec = Some s ->
  starts_with (lit "--") s = false ->
  check_spec rt sys spec o w = Returns (false, o) w.
Proof.
  intros Hs Hdd.
  assert (forall key nv, get_value s key nv = None) as Hnone
    by (intros; by rewrite get_value_starts_with, Hdd).
  assert (forall rest, starts_with (lit "--" ++ rest) s = false) as Hlit.
  { intros rest. destruct (starts_with (lit "--" ++ rest) s) eqn:H; [|done].
    apply starts_with_prefix in H. congruence. }
  unfold check_spec. unfold bind at 1, load. rewrite Hs.
  unfold sscanf_i_lf.
  change (lit "--start-gpst=") with (lit "--" ++ lit "start-gpst=").
  change (lit "--end-gpst=") with (lit "--" ++ lit "end-gpst=").
  rewrite (Hlit (lit "start-gpst=")), (Hlit (lit "end-gpst=")).
  rewrite !CHECK_OPTION_skip by apply Hnone.
  by rewrite Hnone.
Qed.

Lemma check_spec_not_an_option_witness :
  check_spec runtime_sample posix_9600 (0, 0)%nat GlobalOptions_init
    (fresh ["-out=nav.log"%string])
  = Returns (false, GlobalOptions_init) (fresh ["-out=nav.log"%string]).
Proof.
  apply (check_spec_not_an_option runtime_sample posix_9600 (0, 0)%nat
           GlobalOptions_init (fresh ["-out=nav.log"%string])
           (lit "-out=nav.log")).
  - vm_compute. reflexivity.
  - vm_compute. reflexivity.
Defined.

(** X7.  Each of the eight on/off options reaches its own member, whatever
    follows its name: [--name=value] assigns [is_true value], and [--name]
    followed by anything that does not begin with ['='] (nothing, or more
    letters) assigns true.  No other member changes, [check_spec] returns
    true, and only the error stream is written.  In particular no earlier
    option of the cascade, and not the [out] option, takes [--out_N_packet]
    or [--out_sylphide]. *)
Theorem check_spec_bool_option rt sys spec o w k name set rest :
  bool_options !! k = Some (name, set) ->
  c_str (mem w) spec = Some (lit "--" ++ lit name ++ rest) ->
  let value := if starts_with (lit "=") rest then drop 1 rest else lit "true" in
  exists text,
    check_spec rt sys spec o w
    = Returns (true, set (is_true value) o)
        (World (mem w) (iostream_pool w) (streams w) (cerr w ++ text)
               (stdin_binary w) (stdout_binary w)).
Proof.
  intros Hk Hs value.
  assert (get_value (lit "--" ++ lit name ++ rest) (lit name) true
          = Some (if starts_with (lit "=") rest
                  then in_spec (2 + length (lit name) + 1) else literal_true))
    as Hhit by (rewrite get_value_shape; by destruct (starts_with _ rest)).
  assert (value_text (lit "--" ++ lit name ++ rest)
            (if starts_with (lit "=") rest
             then in_spec (2 + length (lit name) + 1) else literal_true)
          = value) as Hvalue.
  { subst value. destruct (starts_with _ rest); [|done].
    unfold value_text. apply drop_dashes. }
  unfold check_spec. unfold bind at 1, load. rewrite Hs.
  unfold bool_options in Hk.
  do 8 (destruct k as [|k];
        [injection Hk as <- <-; eexists; no_sscanf;
         repeat skip_option; try skip_out; repeat skip_option;
         rewrite (CHECK_OPTION_hit _ _ _ _ _ _ _ _ Hhit), Hvalue;
         by rewrite <- !app_assoc |]).
  discriminate Hk.
Qed.

Lemma check_spec_bool_option_witness :
  let w := fresh ["--out_sylphide=on"%string] in
  let value :=
    if starts_with (lit "=") (lit "=on") then drop 1 (lit "=on") else lit "true" in
  exists text,
    check_spec runtime_sample posix_9600 (0, 0)%nat GlobalOptions_init w
    = Returns (true, set_out_sylphide (is_true value) GlobalOptions_init)
        (World (mem w) (iostream_pool w) (streams w) (cerr w ++ text)
               (stdin_binary w) (stdout_binary w)).
Proof.
  apply (check_spec_bool_option runtime_sample posix_9600 (0, 0)%nat
           GlobalOptions_init (fresh ["--out_sylphide=on"%string]) 7%nat
           "out_sylphide"%string set_out_sylphide (lit "=on")).
  - reflexivity.
  - vm_compute. reflexivity.
Defined.

Lemma c_str_offset m spec s j :
  c_str m spec = Some s -> (j <= length s)%nat ->
  c_str m (spec.1, (spec.2 + j)%nat) = Some (drop j s).
Proof.
  intros Hs Hj. destruct (c_str_block _ _ _ Hs) as (cs & Hcs & Hu & _).
  unfold c_str. cbn [fst snd]. rewrite Hcs, <- drop_drop.
  by apply until_NUL_drop.
Qed.

Lemma spec2ostream_dash sys w spec :
  c_str (mem w) spec = Some (lit "-") ->
  spec2ostream sys spec false w
  = Returns std_cout
      (World (mem w) (iostream_pool w) (streams w)
             ((cerr w ++ lit "[std::cout]") ++ [newline])
             (stdin_binary w) (defined_MSC_VER sys || stdout_binary w)).
Proof.
  intros Hs. unfold spec2ostream. unfold bind at 1, load. rewrite Hs.
  change (negb false && (strcmp (lit "-") (lit "-") =? 0)) with true.
  by run.
Qed.

Lemma check_spec_out_resolves rt sys spec o w value :
  c_str (mem w) spec = Some (lit "--" ++ lit "out" ++ lit "=" ++ value) ->
  c_str (mem w) (spec.1, (spec.2 + 6)%nat) = Some value
  /\ check_spec rt sys spec o w
     = match spec2ostream sys (spec.1, (spec.2 + 6)%nat) false
               (World (mem w) (iostream_pool w) (streams w)
                      (cerr w ++ lit "out: ")
                      (stdin_binary w) (stdout_binary w)) with
       | Returns r w' => Returns (true, set_out r o) w'
       | Exits status w' => Exits status w'
       | Undefined => Undefined
       end.
Proof.
  intros Hs. split.
  - rewrite (c_str_offset _ _ _ 6 Hs); [done|].
    rewrite !length_app. cbn. lia.
  - unfold check_spec. unfold bind at 1, load. rewrite Hs.
    no_sscanf. repeat skip_option.
    destruct (get_value_key_value (lit "out") value false) as [Hhit _].
    cbv zeta in Hhit. rewrite Hhit. by run.
Qed.

(** X8.  [--out=value] is resolved by [spec2ostream] on the pointer six chars
    into the argument, without [force_fstream]: the string there is the
    value, ["out: "] is printed first, [_out] becomes the stream returned,
    and a resolution that exits (unsupported baud rate) ends [check_spec]
    too. *)
Theorem check_spec_out rt sys spec o w value :
  c_str (mem w) spec = Some (lit "--" ++ lit "out" ++ lit "=" ++ value) ->
  c_str (mem w) (spec.1, (spec.2 + 6)%nat) = Some value
  /\ check_spec rt sys spec o w
     = match spec2ostream sys (spec.1, (spec.2 + 6)%nat) false
               (World (mem w) (iostream_pool w) (streams w)
                      (cerr w ++ lit "out: ")
                      (stdin_binary w) (stdout_binary w)) with
       | Returns r w' => Returns (true, set_out r o) w'
       | Exits status w' => Exits status w'
       | Undefined => Undefined
       end.
Proof. apply check_spec_out_resolves. Qed.

Lemma check_spec_out_witness :
  let w := fresh ["--out=/dev/ttyUSB0:1200"%string] in
  c_str (mem w) (0, (0 + 6))%nat = Some (lit "/dev/ttyUSB0:1200")
  /\ check_spec runtime_sample posix_9600 (0, 0)%nat GlobalOptions_init w
     = match spec2ostream posix_9600 (0, (0 + 6))%nat false
               (World (mem w) (iostream_pool w) (streams w)
                      (cerr w ++ lit "out: ")
                      (stdin_binary w) (stdout_binary w)) with
       | Returns r w' => Returns (true, set_out r GlobalOptions_init) w'
       | Exits status w' => Exits status w'
       | Undefined => Undefined
       end.
Proof.
  apply (check_spec_out runtime_sample posix_9600 (0, 0)%nat GlobalOptions_init
           (fresh ["--out=/dev/ttyUSB0:1200"%string]) (lit "/dev/ttyUSB0:1200")).
  vm_compute. reflexivity.
Defined.

(** X9.  [--out=path] for a path on the file route never ends the process:
    whether or not the file opens, [check_spec] returns true, [_out] refers
    to the new [fstream], and the pool holds it under the pointer six chars
    into the argument; the argument itself is not modified. *)
Theorem check_spec_out_file rt sys spec o w value :
  c_str (mem w) spec = Some (lit "--" ++ lit "out" ++ lit "=" ++ value) ->
  file_route sys false value ->
  exists w',
    check_spec rt sys spec o w
    = Returns (true, set_out (stream_at (length (streams w))) o) w'
    /\ iostream_pool w'
       = <[(spec.1, (spec.2 + 6)%nat) := length (streams w)]> (iostream_pool w)
    /\ streams w'
       = streams w ++ [fstream value ios_out (negb (file_opens sys value ios_out))]
    /\ mem w' = mem w.
Proof.
  intros Hs Hroute.
  destruct (check_spec_out_resolves rt sys spec o w value Hs) as [Hvalue ->].
  rewrite (spec2ostream_file sys _ _ false value); [|done|done].
  eexists. split_and!; done.
Qed.

Lemma check_spec_out_file_witness :
  let w := fresh ["--out=missing.bin"%string] in
  exists w',
    check_spec runtime_sample posix_9600 (0, 0)%nat GlobalOptions_init w
    = Returns (true, set_out (stream_at (length (streams w))) GlobalOptions_init) w'
    /\ iostream_pool w'
       = <[(0, (0 + 6))%nat := length (streams w)]> (iostream_pool w)
    /\ streams w'
       = streams w
         ++ [fstream (lit "missing.bin") ios_out
               (negb (file_opens posix_9600 (lit "missing.bin") ios_out))]
    /\ mem w' = mem w.
Proof.
  apply (check_spec_out_file runtime_sample posix_9600 (0, 0)%nat
           GlobalOptions_init (fresh ["--out=missing.bin"%string])
           (lit "missing.bin")).
  - vm_compute. reflexivity.
  - right. split; [discriminate|vm_compute; reflexivity].
Defined.

(** X10.  [--out=-] makes [_out] the standard output: [check_spec] returns
    true and neither the pool, the streams nor the memory change. *)
Theorem check_spec_out_standard rt sys spec o w :
  c_str (mem w) spec = Some (lit "--" ++ lit "out" ++ lit "=" ++ lit "-") ->
  exists w',
    check_spec rt sys spec o w = Returns (true, set_out std_cout o) w'
    /\ iostream_pool w' = iostream_pool w
    /\ streams w' = streams w
    /\ mem w' = mem w.
Proof.
  intros Hs.
  destruct (check_spec_out_resolves rt sys spec o w (lit "-") Hs) as [Hvalue ->].
  rewrite spec2ostream_dash by done.
  eexists. split_and!; done.
Qed.

Lemma check_spec_out_standard_witness :
  let w := Teardown.log_opened in
  let w0 := caller_writes 1 "--out=-" w in
  exists w',
    check_spec runtime_sample posix_9600 (1, 0)%nat
      (set_out (stream_at 0) GlobalOptions_init) w0
    = Returns (true, set_out std_cout (set_out (stream_at 0) GlobalOptions_init)) w'
    /\ iostream_pool w' = iostream_pool w0
    /\ streams w' = streams w0
    /\ mem w' = mem w0.
Proof.
  apply (check_spec_out_standard runtime_sample posix_9600 (1, 0)%nat
           (set_out (stream_at 0) GlobalOptions_init)
           (caller_writes 1 "--out=-" Teardown.log_opened)).
  vm_compute. reflexivity.
Defined.

(** X11.  [--start-gpst=value] and [--end-gpst=value]: when the two [sscanf]
    conversions ["%i:%lf"] succeed on the value, the week and the time of
    that end of the range are both assigned; otherwise the value goes
    through [atof] and only the time is assigned.  Nothing else changes and
    [check_spec] returns true. *)
Theorem check_spec_gpst rt sys spec o w (is_end : bool) value :
  let name := if is_end then lit "end-gpst" else lit "start-gpst" in
  c_str (mem w) spec = Some (lit "--" ++ name ++ lit "=" ++ value) ->
  exists text,
    check_spec rt sys spec o w
    = Returns
        (true,
         match scan_i_lf rt value with
         | Some (week, seconds) =>
             if is_end then set_end_gpswn week (set_end_gpstime seconds o)
             else set_start_gpswn week (set_start_gpstime seconds o)
         | None =>
             if is_end then set_end_gpstime (atof rt value) o
             else set_start_gpstime (atof rt value) o
         end)
        (World (mem w) (iostream_pool w) (streams w) (cerr w ++ text)
               (stdin_binary w) (stdout_binary w)).
Proof.
  intros name Hs. subst name.
  unfold check_spec. unfold bind at 1, load. rewrite Hs.
  unfold sscanf_i_lf. destruct is_end.
  - change (starts_with (lit "--start-gpst=")
              (lit "--" ++ lit "end-gpst" ++ lit "=" ++ value)) with false.
    change (starts_with (lit "--end-gpst=")
              (lit "--" ++ lit "end-gpst" ++ lit "=" ++ value)) with true.
    change (drop (length (lit "--end-gpst="))
              (lit "--" ++ lit "end-gpst" ++ lit "=" ++ value)) with value.
    cbv beta iota.
    destruct (scan_i_lf rt value) as [[week seconds]|].
    + run. eexists. by rewrite <- !app_assoc.
    + cbv beta iota. eexists. repeat skip_option.
      destruct (get_value_key_value (lit "end-gpst") value false) as [Hhit Hv].
      cbv zeta in Hhit, Hv.
      rewrite (CHECK_OPTION_hit _ _ _ _ _ _ _ _ Hhit), Hv.
      by rewrite <- !app_assoc.
  - change (starts_with (lit "--start-gpst=")
              (lit "--" ++ lit "start-gpst" ++ lit "=" ++ value)) with true.
    change (drop (length (lit "--start-gpst="))
              (lit "--" ++ lit "start-gpst" ++ lit "=" ++ value)) with value.
    cbv beta iota.
    destruct (scan_i_lf rt value) as [[week seconds]|].
    + run. eexists. by rewrite <- !app_assoc.
    + change (starts_with (lit "--end-gpst=")
                (lit "--" ++ lit "start-gpst" ++ lit "=" ++ value)) with false.
      cbv beta iota.
      destruct (get_value_key_value (lit "start-gpst") value false) as [Hhit Hv].
      cbv zeta in Hhit, Hv.
      rewrite (CHECK_OPTION_hit _ _ _ _ _ _ _ _ Hhit), Hv.
      eexists. by rewrite <- !app_assoc.
Qed.

Lemma check_spec_gpst_witness :
  let w := fresh ["--end-gpst=2100:345600.5"%string] in
  exists text,
    check_spec runtime_sample posix_9600 (0, 0)%nat GlobalOptions_init w
    = Returns
        (true,
         match scan_i_lf runtime_sample (lit "2100:345600.5") with
         | Some (week, seconds) =>
             if true
             then set_end_gpswn week (set_end_gpstime seconds GlobalOptions_init)
             else set_start_gpswn week
                    (set_start_gpstime seconds GlobalOptions_init)
         | None =>
             if true
             then set_end_gpstime (atof runtime_sample (lit "2100:345600.5"))
                    GlobalOptions_init
             else set_start_gpstime (atof runtime_sample (lit "2100:345600.5"))
                    GlobalOptions_init
         end)
        (World (mem w) (iostream_pool w) (streams w) (cerr w ++ text)
               (stdin_binary w) (stdout_binary w)).
Proof.
  apply (check_spec_gpst runtime_sample posix_9600 (0, 0)%nat GlobalOptions_init
           (fresh ["--end-gpst=2100:345600.5"%string]) true
           (lit "2100:345600.5")).
  vm_compute. reflexivity.
Defined.

Lemma digits_value_stops ds c rest acc :
  Forall (fun d => is_Some (digit d)) ds -> digit c = None ->
  digits_value acc (ds ++ c :: rest) = digits_value acc ds.
Proof.
  intros Hds Hc. revert acc.
  induction Hds as [|d ds [v Hd] _ IH]; intros acc; cbn [app digits_value].
  - by rewrite Hc.
  - rewrite Hd. apply IH.
Qed.

Lemma digit_not_space_or_sign d v :
  digit d = Some v ->
  isspace d = false /\ Ascii.eqb d "-"%char = false /\ Ascii.eqb d "+"%char = false.
Proof.
  unfold digit, isspace. intros H.
  destruct ((48 <=? code d) && (code d <=? 57)) eqn:Hrange; [|done].
  apply andb_prop in Hrange as [Hlo Hhi].
  apply Z.leb_le in Hlo, Hhi. split_and!.
  - apply orb_false_intro; [apply Z.eqb_neq; lia|].
    apply andb_false_intro2. apply Z.leb_gt. lia.
  - destruct (Ascii.eqb_spec d "-"%char) as [->|]; [|done].
    vm_compute in Hlo. done.
  - destruct (Ascii.eqb_spec d "+"%char) as [->|]; [|done].
    vm_compute in Hlo. done.
Qed.

Lemma decimal_value_stops d ds c rest :
  is_Some (digit d) -> Forall (fun x => is_Some (digit x)) ds ->
  digit c = None ->
  decimal_value (d :: ds ++ c :: rest) = decimal_value (d :: ds).
Proof.
  intros [v Hd] Hds Hc.
  destruct (digit_not_space_or_sign d v Hd) as (Hsp & Hminus & Hplus).
  unfold decimal_value. cbn [skip_spaces]. rewrite Hsp, Hminus, Hplus.
  change (d :: ds ++ c :: rest) with ((d :: ds) ++ c :: rest).
  apply digits_value_stops; [|done]. constructor; [by exists v|done].
Qed.

(** X12.  The speed threshold, a floating-point member, is read with [atoi]:
    for a value made of decimal digits that denote a number an [int] holds,
    a ['.'] and any further text, the member becomes the integer before the
    ['.']; the fraction is dropped. *)
Theorem check_spec_yaw_threshold rt sys spec o w d ds fraction :
  is_Some (digit d) -> Forall (fun x => is_Some (digit x)) ds ->
  representable v_s32_t (decimal_value (d :: ds)) = true ->
  c_str (mem w) spec
  = Some (lit "--" ++ lit "yaw_correct_with_mag_when_speed_less_than_ms"
          ++ lit "=" ++ (d :: ds ++ lit "." ++ fraction)) ->
  exists text,
    check_spec rt sys spec o w
    = Returns
        (true,
         set_yaw_correct_with_mag_when_speed_less_than_ms
           (int_to_double (decimal_value (d :: ds))) o)
        (World (mem w) (iostream_pool w) (streams w) (cerr w ++ text)
               (stdin_binary w) (stdout_binary w)).
Proof.
  intros Hd Hds Hrange Hs.
  unfold check_spec. unfold bind at 1, load. rewrite Hs.
  eexists. no_sscanf. repeat skip_option.
  destruct (get_value_key_value
              (lit "yaw_correct_with_mag_when_speed_less_than_ms")
              (d :: ds ++ lit "." ++ fraction) false) as [Hhit Hv].
  cbv zeta in Hhit, Hv.
  rewrite (CHECK_OPTION_hit _ _ _ _ _ _ _ _ Hhit), Hv.
  change (lit "." ++ fraction) with ("."%char :: fraction).
  unfold atoi.
  rewrite (decimal_value_stops d ds "."%char fraction Hd Hds eq_refl), Hrange.
  by rewrite <- !app_assoc.
Qed.

Lemma check_spec_yaw_threshold_witness :
  let w :=
    fresh ["--yaw_correct_with_mag_when_speed_less_than_ms=2.5"%string] in
  exists text,
    check_spec runtime_sample posix_9600 (0, 0)%nat GlobalOptions_init w
    = Returns
        (true,
         set_yaw_correct_with_mag_when_speed_less_than_ms
           (int_to_double 2) GlobalOptions_init)
        (World (mem w) (iostream_pool w) (streams w) (cerr w ++ text)
               (stdin_binary w) (stdout_binary w)).
Proof.
  apply (check_spec_yaw_threshold runtime_sample posix_9600 (0, 0)%nat
           GlobalOptions_init
           (fresh ["--yaw_correct_with_mag_when_speed_less_than_ms=2.5"%string])
           "2"%char [] (lit "5")).
  - exists 2. reflexivity.
  - constructor.
  - reflexivity.
  - vm_compute. reflexivity.
Defined.

(** *** [is_time_in_range] *)

Lemma digits2_pos_bound m : Z.pos m < 2 ^ Z.pos (digits2_pos m).
Proof.
  induction m as [m IH|m IH|]; cbn [digits2_pos]; [| |done].
  - rewrite Pos2Z.inj_succ, Z.pow_succ_r by lia. lia.
  - rewrite Pos2Z.inj_succ, Z.pow_succ_r by lia. lia.
Qed.

Lemma valid_finite_bounds s m e :
  valid_binary (S754_finite s m e) = true ->
  e <= 971 /\ (e = 971 -> Z.pos (digits2_pos m) = 53).
Proof.
  unfold valid_binary, SpecFloat.valid_binary, bounded, canonical_mantissa, fexp,
    emin, emax, prec.
  intros H. apply andb_prop in H as [Hcanon He].
  apply Z.eqb_eq in Hcanon. apply Z.leb_le in He.
  lia.
Qed.

Lemma mantissa_bound m :
  Z.pos (digits2_pos m) = 53 -> Pos.compare_cont Eq m 9007199254740991 <> Gt.
Proof.
  intros Hd Hgt.
  pose proof (digits2_pos_bound m) as Hm. rewrite Hd in Hm.
  assert (2 ^ 53 = 9007199254740992) as Hpow by (vm_compute; reflexivity).
  rewrite Hpow in Hm.
  rewrite Pos.compare_cont_spec in Hgt.
  destruct (Pos.compare_spec m 9007199254740991) as [?|?|Hlt];
    cbn [Pos.switch_Eq] in Hgt; try discriminate Hgt.
  lia.
Qed.

Lemma finite_le_DBL_MAX m e :
  valid_binary (S754_finite false m e) = true ->
  SFleb (S754_finite false m e) (S754_finite false 9007199254740991 971) = true.
Proof.
  intros Hvalid. destruct (valid_finite_bounds _ _ _ Hvalid) as [He Hm].
  unfold SFleb, SFcompare.
  destruct (Z.compare e 971) eqn:Hcmp.
  - apply Z.compare_eq in Hcmp.
    pose proof (mantissa_bound m (Hm Hcmp)) as Hc.
    destruct (Pos.compare_cont Eq m 9007199254740991); [reflexivity..|].
    by destruct Hc.
  - reflexivity.
  - apply Z.compare_gt_iff in Hcmp. lia.
Qed.

Lemma Prim2SF_DBL_MAX : Prim2SF DBL_MAX = S754_finite false 9007199254740991 971.
Proof. vm_compute. reflexivity. Qed.

Lemma Prim2SF_zero : Prim2SF 0 = S754_zero false.
Proof. vm_compute. reflexivity. Qed.

Lemma Prim2SF_infinity : Prim2SF infinity = S754_infinity false.
Proof. vm_compute. reflexivity. Qed.

(** X13.  With the options of the constructor (start 0, end [DBL_MAX]) the
    range has no upper cut for finite times: a time is in range exactly when
    it is at least 0 and is not +infinity. *)
Theorem default_time_range time :
  is_time_in_range GlobalOptions_init time
  = (0 <=? time)%float && negb (time =? infinity)%float.
Proof.
  unfold is_time_in_range. cbn [start_gpstime end_gpstime GlobalOptions_init].
  rewrite !FloatAxioms.leb_spec, FloatAxioms.eqb_spec.
  rewrite Prim2SF_DBL_MAX, Prim2SF_zero, Prim2SF_infinity.
  pose proof (Prim2SF_valid time) as Hvalid.
  destruct (Prim2SF time) as [sz|si| |s m e].
  - by destruct sz.
  - by destruct si.
  - reflexivity.
  - destruct s; [reflexivity|].
    rewrite (finite_le_DBL_MAX m e Hvalid). reflexivity.
Qed.

(** X14.  A time that is NaN is never in range, and when either bound of the
    range is NaN no time at all is in range. *)
Theorem nan_is_never_in_range o time :
  Prim2SF time = S754_nan \/ Prim2SF (start_gpstime o) = S754_nan
  \/ Prim2SF (end_gpstime o) = S754_nan ->
  is_time_in_range o time = false.
Proof.
  unfold is_time_in_range. rewrite !FloatAxioms.leb_spec.
  intros [H|[H|H]]; rewrite H.
  - by destruct (Prim2SF (start_gpstime o)).
  - reflexivity.
  - apply andb_false_intro2. by destruct (Prim2SF time).
Qed.

Lemma nan_is_never_in_range_witness :
  is_time_in_range GlobalOptions_init nan = false.
Proof.
  apply (nan_is_never_in_range GlobalOptions_init nan).
  left. vm_compute. reflexivity.
Defined.

End OptionsFacts.

(** ** Resolutions in sequence, and the end of the process *)

Module TeardownFacts.
Import Numeric Resolver ResolverFacts Teardown.

Lemma cut_memory_other m spec i b :
  b <> spec.1 -> cut_memory m spec i !! b = m !! b.
Proof.
  intros Hb. unfold cut_memory. destruct (m !! spec.1); [|done].
  by rewrite lookup_insert_ne.
Qed.

Lemma memory_after_comport_other m spec s b :
  b <> spec.1 -> memory_after_comport m spec s !! b = m !! b.
Proof.
  intros Hb. unfold memory_after_comport.
  destruct (strchr s ":"%char); [by apply cut_memory_other|done].
Qed.

Ltac frame_done :=
  proj; split_and!;
  [ first [by rewrite app_nil_r | done]
  | cbn [length]; lia
  | first [by left | by right]
  | by rewrite <- ?app_assoc
  | auto using memory_after_comport_other, cut_memory_other ].

Lemma comport_branch_frame sys spec s w w' :
  c_str (mem w) spec = Some s ->
  final_world (comport_branch sys spec s w) = Some w' ->
  resolution_frame spec w w'.
Proof.
  intros Hs. unfold resolution_frame.
  destruct (iostream_pool w !! spec) as [k|] eqn:Hk.
  - rewrite (comport_branch_pooled _ _ _ _ _ Hs Hk). intros [= <-].
    exists []. eexists. frame_done.
  - destruct (strchr s ":"%char) as [i|] eqn:Hi.
    + rewrite (comport_branch_new_baudrate _ _ _ _ _ Hs Hk Hi).
      destruct (_ =? _); intros [= <-]; eexists [_], _; frame_done.
    + rewrite (comport_branch_new _ _ _ _ Hs Hk Hi). intros [= <-].
      eexists [_], _. frame_done.
Qed.

Lemma resolve_frame_holds sys dir spec force_fstream w w' :
  final_world (resolve sys dir spec force_fstream w) = Some w' ->
  resolution_frame spec w w'.
Proof.
  destruct (c_str (mem w) spec) as [s|] eqn:Hs.
  2: { destruct dir; unfold resolve, spec2istream, spec2ostream;
       unfold bind at 1, load; rewrite Hs; by cbv beta iota delta [final_world]. }
  pose proof (comport_branch_frame sys spec s w w' Hs) as Hcom.
  unfold resolution_frame.
  destruct dir; unfold resolve, spec2istream, spec2ostream;
    unfold bind at 1, load; rewrite Hs.
  - destruct (negb force_fstream && (strcmp s (lit "-") =? 0)).
    { run. intros [= <-]. exists []. eexists. frame_done. }
    destruct (negb force_fstream
              && bool_decide (strstr s (COMPORT_PREFIX sys) = Some 0%nat));
      [done|].
    run. destruct (file_opens sys s ios_in); cbn [negb]; intros [= <-];
      eexists [_], _; frame_done.
  - destruct (negb force_fstream && (strcmp s (lit "-") =? 0)).
    { run. intros [= <-]. exists []. eexists. frame_done. }
    destruct (negb force_fstream
              && bool_decide (strstr s (COMPORT_PREFIX sys) = Some 0%nat));
      [done|].
    run. intros [= <-]. eexists [_], _. frame_done.
Qed.

(** X15.  Whatever the specifier, the direction and the outcome (a return or
    an exit), a resolution leaves the streams that existed untouched and adds
    at most one after them; it leaves every pool entry of another key alone
    and either keeps the pool or stores the one new stream under the
    specifier; it only appends to the error stream; and it writes to no
    block of memory but the specifier's own. *)
Theorem resolve_frame sys dir spec force_fstream w w' :
  final_world (resolve sys dir spec force_fstream w) = Some w' ->
  resolution_frame spec w w'.
Proof. apply resolve_frame_holds. Qed.

Lemma resolve_frame_witness :
  resolution_frame (2, 0)%nat
    (fresh ["nav.log"%string; "-"%string; "/dev/ttyUSB0:1200"%string])
    (world_after
       (resolve posix_9600 input (2, 0)%nat false
          (fresh ["nav.log"%string; "-"%string; "/dev/ttyUSB0:1200"%string]))).
Proof.
  apply (resolve_frame posix_9600 input (2, 0)%nat false
           (fresh ["nav.log"%string; "-"%string; "/dev/ttyUSB0:1200"%string])).
  vm_compute. reflexivity.
Defined.

Lemma resolve_keeps_pool_wf_holds sys dir spec force_fstream w w' :
  pool_wf w ->
  final_world (resolve sys dir spec force_fstream w) = Some w' ->
  pool_wf w'.
Proof.
  intros [Hvalid Hinj] Hfinal.
  destruct (resolve_frame_holds _ _ _ _ _ _ Hfinal)
    as (new & text & Hstreams & Hnew & Hpool & _ & _).
  assert (length (streams w') = length (streams w) + length new)%nat as Hlen
    by (by rewrite Hstreams, length_app).
  unfold pool_wf.
  destruct Hpool as [Hpool|[Hpool Hone]]; rewrite Hpool; split.
  - intros p i Hp. specialize (Hvalid p i Hp). lia.
  - done.
  - intros p i. rewrite lookup_insert.
    destruct (decide (spec = p)) as [<-|Hne].
    + intros [= <-]. lia.
    + intros Hp. specialize (Hvalid p i Hp). lia.
  - intros p q i. rewrite !lookup_insert.
    destruct (decide (spec = p)) as [<-|Hp], (decide (spec = q)) as [<-|Hq].
    + done.
    + intros [= <-] Hq'. specialize (Hvalid q _ Hq'). lia.
    + intros Hp' [= <-]. specialize (Hvalid p _ Hp'). lia.
    + apply Hinj.
Qed.

Lemma reachable_pool_wf sys w : reachable sys w -> pool_wf w.
Proof.
  induction 1 as [m err b1 b2|w dir spec force r w' _ IH Hres|w m _ IH].
  - split; intros ? *; cbn [iostream_pool]; by rewrite lookup_empty.
  - eapply resolve_keeps_pool_wf_holds; [exact IH|]. by rewrite Hres.
  - exact IH.
Qed.

Lemma log_opened_reachable : reachable posix_9600 log_opened.
Proof.
  apply (reachable_resolve posix_9600
           (fresh ["nav.log"%string; "COM3:9600"%string])
           output (0, 0)%nat false (stream_at 0)).
  - apply reachable_start.
  - vm_compute. reflexivity.
Qed.

(** X16.  The pool stays well formed across a resolution, whatever its
    outcome: if every entry refers to a stream the process has created and
    no two keys refer to the same stream, the same holds afterwards. *)
Theorem resolve_keeps_pool_wf sys dir spec force_fstream w w' :
  pool_wf w ->
  final_world (resolve sys dir spec force_fstream w) = Some w' ->
  pool_wf w'.
Proof. apply resolve_keeps_pool_wf_holds. Qed.

Lemma resolve_keeps_pool_wf_witness : pool_wf log_reopened.
Proof.
  apply (resolve_keeps_pool_wf posix_9600 output (0, 0)%nat false log_opened).
  - apply (reachable_pool_wf posix_9600). apply log_opened_reachable.
  - vm_compute. reflexivity.
Defined.

(** X17.  In every state a process can reach by resolutions (with any writes
    to its memory in between), the destructor flushes and deletes each stream
    of the pool exactly once, and only streams the process has created: no
    stream is deleted twice. *)
Theorem destructor_deletes_once sys w :
  reachable sys w ->
  NoDup (destructor w)
  /\ (forall i, i ∈ destructor w <->
                exists spec, iostream_pool w !! spec = Some i)
  /\ (forall i, i ∈ destructor w -> (i < length (streams w))%nat).
Proof.
  intros Hreach. destruct (reachable_pool_wf _ _ Hreach) as [Hvalid Hinj].
  assert (forall i, i ∈ destructor w <->
                    exists spec, iostream_pool w !! spec = Some i) as Hin.
  { intros i. unfold destructor. rewrite list_elem_of_fmap. split.
    - intros ([p j] & -> & Hpj). exists p. by apply elem_of_map_to_list.
    - intros [p Hp]. exists (p, i). split; [done|].
      by apply elem_of_map_to_list. }
  split_and!; [|done|].
  - unfold destructor. apply NoDup_fmap_2_strong; [|apply NoDup_map_to_list].
    intros [p i] [q j] Hp Hq. cbn [snd]. intros <-.
    apply elem_of_map_to_list in Hp, Hq. f_equal. by eapply Hinj.
  - intros i [p Hp]%Hin. by eapply Hvalid.
Qed.

Lemma destructor_deletes_once_witness :
  NoDup (destructor log_opened)
  /\ (forall i, i ∈ destructor log_opened <->
                exists spec, iostream_pool log_opened !! spec = Some i)
  /\ (forall i, i ∈ destructor log_opened -> (i < length (streams log_opened))%nat).
Proof.
  apply (destructor_deletes_once posix_9600 log_opened).
  apply log_opened_reachable.
Defined.

(** X18.  Resolving on the file route a specifier that is already a key of
    the pool opens a new stream and replaces the entry: the stream the key
    referred to still exists, but being in the pool no more, the destructor
    neither flushes nor deletes it. *)
Theorem reopened_file_is_never_flushed sys dir w spec force_fstream s k r w' :
  reachable sys w ->
  iostream_pool w !! spec = Some k ->
  c_str (mem w) spec = Some s ->
  file_route sys force_fstream s ->
  resolve sys dir spec force_fstream w = Returns r w' ->
  r = stream_at (length (streams w))
  /\ streams w' !! k = streams w !! k
  /\ (k < length (streams w))%nat
  /\ k ∉ destructor w'.
Proof.
  intros Hreach Hk Hs Hroute Hres.
  destruct (reachable_pool_wf _ _ Hreach) as [Hvalid Hinj].
  pose proof (Hvalid _ _ Hk) as Hlt.
  assert (r = stream_at (length (streams w))
          /\ iostream_pool w' = <[spec := length (streams w)]> (iostream_pool w)
          /\ exists f, streams w' = streams w ++ [f]) as (-> & Hpool & f & Hstreams).
  { destruct dir; unfold resolve in Hres.
    - rewrite (spec2istream_file _ _ _ _ _ Hs Hroute) in Hres.
      destruct (file_opens sys s ios_in); [|done].
      injection Hres as <- <-. proj. eauto.
    - rewrite (spec2ostream_file _ _ _ _ _ Hs Hroute) in Hres.
      injection Hres as <- <-. proj. eauto. }
  split_and!; [done| |done|].
  - rewrite Hstreams. by rewrite lookup_app_l.
  - unfold destructor. rewrite list_elem_of_fmap. intros ([q j] & Hj & Hq).
    cbn [snd] in Hj. subst j. apply elem_of_map_to_list in Hq.
    rewrite Hpool, lookup_insert in Hq.
    destruct (decide (spec = q)) as [<-|Hne].
    + injection Hq as Hq. lia.
    + apply Hne. by eapply Hinj.
Qed.

Lemma reopened_file_is_never_flushed_witness :
  stream_at 1 = stream_at (length (streams log_opened))
  /\ streams log_reopened !! 0%nat = streams log_opened !! 0%nat
  /\ (0 < length (streams log_opened))%nat
  /\ 0%nat ∉ destructor log_reopened.
Proof.
  apply (reopened_file_is_never_flushed posix_9600 output log_opened
           (0, 0)%nat false (lit "nav.log") 0%nat (stream_at 1) log_reopened).
  - apply log_opened_reachable.
  - vm_compute. reflexivity.
  - vm_compute. reflexivity.
  - right. split; [discriminate|vm_compute; reflexivity].
  - vm_compute. reflexivity.
Defined.

(** X19.  For a COM-port specifier with a baud-rate suffix that is not yet a
    key of the pool, the resolution returns exactly when the device answers
    [set_baudrate] with the rate asked for, which is the [int] that [atoi]
    makes of the suffix; it then returns the newly
    created stream, set to that rate and named by the text before the
    [':'], stored in the pool under the specifier, which now reads as that
    name. *)
Theorem comport_baudrate_accepted_iff sys dir w spec s i :
  c_str (mem w) spec = Some s ->
  starts_with (COMPORT_PREFIX sys) s = true ->
  strchr s ":"%char = Some i ->
  iostream_pool w !! spec = None ->
  let name := take i s in
  let baudrate := atoi (atoi_overflow sys) (drop (S i) s) in
  (com_set_baudrate sys name baudrate = baudrate <->
   exists w',
     resolve sys dir spec false w = Returns (stream_at (length (streams w))) w'
     /\ streams w' = streams w ++ [ComportStream name (Some baudrate)]
     /\ iostream_pool w' = <[spec := length (streams w)]> (iostream_pool w)
     /\ c_str (mem w') spec = Some name).
Proof.
  intros Hs HP Hi Hk name baudrate.
  rewrite (resolve_comport _ _ _ _ _ Hs HP).
  rewrite (comport_branch_new_baudrate _ _ _ _ _ Hs Hk Hi).
  fold name. fold baudrate.
  destruct (Z.eqb_spec baudrate (com_set_baudrate sys name baudrate)) as [Heq|Hne].
  - split; [|by intros _]. intros _. eexists. split_and!; [done| | |].
    + proj. by rewrite <- Heq.
    + done.
    + proj. apply c_str_cut; [done|]. by eapply strchr_lt.
  - split; [intros Heq; by destruct Hne|]. by intros (w' & [=] & _).
Qed.

Lemma comport_baudrate_accepted_iff_witness :
  let w := fresh ["/dev/ttyUSB0:9600"%string] in
  let name := take 12 (lit "/dev/ttyUSB0:9600") in
  let baudrate := atoi strtol_saturated (drop 13 (lit "/dev/ttyUSB0:9600")) in
  (com_set_baudrate posix_9600 name baudrate = baudrate <->
   exists w',
     resolve posix_9600 output (0, 0)%nat false w
     = Returns (stream_at (length (streams w))) w'
     /\ streams w' = streams w ++ [ComportStream name (Some baudrate)]
     /\ iostream_pool w' = <[(0, 0)%nat := length (streams w)]> (iostream_pool w)
     /\ c_str (mem w') (0, 0)%nat = Some name).
Proof.
  apply (comport_baudrate_accepted_iff posix_9600 output
           (fresh ["/dev/ttyUSB0:9600"%string]) (0, 0)%nat
           (lit "/dev/ttyUSB0:9600") 12%nat).
  - vm_compute. reflexivity.
  - vm_compute. reflexivity.
  - vm_compute. reflexivity.
  - vm_compute. reflexivity.
Defined.

(** X20.  With [force_fstream] set every specifier is a file name, ["-"] and
    COM-port names with a [':'] included: an output resolution returns a new
    [fstream] of that full name and stores it in the pool, an input
    resolution returns one exactly when the file opens (and exits
    otherwise); no standard stream is returned and the caller's string is
    not modified. *)
Theorem force_fstream_opens_a_file sys w spec s :
  c_str (mem w) spec = Some s ->
  let n := length (streams w) in
  (exists w',
     spec2ostream sys spec true w = Returns (stream_at n) w'
     /\ streams w' = streams w ++ [fstream s ios_out (negb (file_opens sys s ios_out))]
     /\ iostream_pool w' = <[spec := n]> (iostream_pool w)
     /\ mem w' = mem w)
  /\ (exists w',
        final_world (spec2istream sys spec true w) = Some w'
        /\ returned (spec2istream sys spec true w)
           = (if file_opens sys s ios_in then Some (stream_at n) else None)
        /\ streams w' = streams w ++ [fstream s ios_in (negb (file_opens sys s ios_in))]
        /\ mem w' = mem w).
Proof.
  intros Hs n. split.
  - rewrite (spec2ostream_file sys w spec true s Hs) by by left.
    eexists. split_and!; done.
  - rewrite (spec2istream_file sys w spec true s Hs) by by left.
    destruct (file_opens sys s ios_in); eexists; split_and!; done.
Qed.

Lemma force_fstream_opens_a_file_witness :
  let w := fresh ["-"%string] in
  let n := length (streams w) in
  (exists w',
     spec2ostream posix_9600 (0, 0)%nat true w = Returns (stream_at n) w'
     /\ streams w'
        = streams w
          ++ [fstream (lit "-") ios_out
                (negb (file_opens posix_9600 (lit "-") ios_out))]
     /\ iostream_pool w' = <[(0, 0)%nat := n]> (iostream_pool w)
     /\ mem w' = mem w)
  /\ (exists w',
        final_world (spec2istream posix_9600 (0, 0)%nat true w) = Some w'
        /\ returned (spec2istream posix_9600 (0, 0)%nat true w)
           = (if file_opens posix_9600 (lit "-") ios_in
              then Some (stream_at n) else None)
        /\ streams w'
           = streams w
             ++ [fstream (lit "-") ios_in
                   (negb (file_opens posix_9600 (lit "-") ios_in))]
        /\ mem w' = mem w).
Proof.
  apply (force_fstream_opens_a_file posix_9600 (fresh ["-"%string]) (0, 0)%nat
           (lit "-")).
  vm_compute. reflexivity.
Defined.

End TeardownFacts.
